(** * Product management page: identifier derivation, catalog view, handlers

    A shallow embedding of [src/pages/ProductManagementPage.tsx].

    JavaScript strings are sequences of UTF-16 code units and the two
    regular expressions of the page carry neither the [u] nor the [i]
    flag, so they see one code unit at a time.  Strings are therefore
    lists of code units ([N]), not bytes. *)

From Stdlib Require Import String Ascii NArith ZArith List Lia Floats.
From stdpp Require Import base option list gmap sorting.

Local Open Scope N_scope.

(** ** JavaScript strings *)

Module JsString.

Abbreviation t := (list N).

(** Reading a literal of this file (UTF-8 bytes) as UTF-16 code units:
    one unit up to U+FFFF, a surrogate pair above. *)
Definition cont (b : N) : N := N.land b 0x3F.

Fixpoint of_utf8 (bs : list N) : t :=
  match bs with
  | [] => []
  | b0 :: r0 =>
    if b0 <? 0x80 then b0 :: of_utf8 r0
    else if b0 <? 0xE0 then
      match r0 with
      | b1 :: r1 =>
        N.lor (N.shiftl (N.land b0 0x1F) 6) (cont b1) :: of_utf8 r1
      | _ => [0xFFFD]
      end
    else if b0 <? 0xF0 then
      match r0 with
      | b1 :: b2 :: r2 =>
        N.lor (N.shiftl (N.land b0 0x0F) 12)
              (N.lor (N.shiftl (cont b1) 6) (cont b2)) :: of_utf8 r2
      | _ => [0xFFFD]
      end
    else
      match r0 with
      | b1 :: b2 :: b3 :: r3 =>
        let cp := N.lor (N.shiftl (N.land b0 0x07) 18)
                  (N.lor (N.shiftl (cont b1) 12)
                  (N.lor (N.shiftl (cont b2) 6) (cont b3))) in
        let v := cp - 0x10000 in
        (0xD800 + N.shiftr v 10) :: (0xDC00 + N.land v 0x3FF) :: of_utf8 r3
      | _ => [0xFFFD]
      end
  end.

Definition lit (s : string) : t :=
  of_utf8 (List.map (fun b => N_of_ascii b) (list_ascii_of_string s)).

(** The code units the page names. *)
Definition a_uml : N := 0xE4.   (* ä *)
Definition o_uml : N := 0xF6.   (* ö *)
Definition u_uml : N := 0xFC.   (* ü *)
Definition eszett : N := 0xDF.  (* ß *)
Definition hyphen : N := 0x2D.  (* - *)

(** [String.prototype.toLowerCase], one code unit at a time.  Basic Latin
    and Latin-1 are mapped as Unicode has them.  Above Latin-1 the model
    keeps the four mappings whose result the page's regular expressions
    can tell apart or whose length differs: U+0130 (two units, "i" and a
    combining dot), U+1E9E (to ß), U+212A (to k) and U+212B (to å).
    Every other cased letter goes from one unit outside [a-z0-9äöüß] to
    another such unit and is left in place. *)
Definition lowerUnit (c : N) : t :=
  if (0x41 <=? c) && (c <=? 0x5A) then [c + 32]
  else if (0xC0 <=? c) && (c <=? 0xDE) && negb (c =? 0xD7) then [c + 32]
  else if c =? 0x130 then [0x69; 0x307]
  else if c =? 0x1E9E then [eszett]
  else if c =? 0x212A then [0x6B]
  else if c =? 0x212B then [0xE5]
  else [c].

Definition toLowerCase (s : t) : t := flat_map lowerUnit s.

(** [s.replace(/[class]/g, f)] for a one-unit character class: every
    unit of the class is a match, replaced by what [f] returns for it. *)
Definition replaceClass (cls : N -> bool) (f : t -> t) (s : t) : t :=
  flat_map (fun c => if cls c then f [c] else [c]) s.

(** Truthiness of a string value: only the empty string is falsy. *)
Definition truthy (s : t) : bool :=
  match s with [] => false | _ => true end.

End JsString.

Abbreviation jsstring := JsString.t.
Notation "'js' s" := (JsString.lit s%string) (at level 9, s at level 0, only parsing).

(** ** The identifier deriver (handleAddProduct, lines 73-84) *)

(** /[äöüß]/ *)
Definition isUmlaut (c : N) : bool :=
  (c =? JsString.a_uml) || (c =? JsString.o_uml)
  || (c =? JsString.u_uml) || (c =? JsString.eszett).

(** The literal object [chars] of the replacer. *)
Definition chars (key : jsstring) : option jsstring :=
  match key with
  | [c] =>
    if c =? JsString.a_uml then Some (js"ae")
    else if c =? JsString.o_uml then Some (js"oe")
    else if c =? JsString.u_uml then Some (js"ue")
    else if c =? JsString.eszett then Some (js"ss")
    else None
  | _ => None
  end.

(** [(match) => chars[match] || match] *)
Definition replacer (m : jsstring) : jsstring :=
  match chars m with
  | Some r => if JsString.truthy r then r else m
  | None => m
  end.

(** /[^a-z0-9]/ *)
Definition isAlnum (c : N) : bool :=
  ((0x61 <=? c) && (c <=? 0x7A)) || ((0x30 <=? c) && (c <=? 0x39)).

Definition notAlnum (c : N) : bool := negb (isAlnum c).

Definition derive_id (name : jsstring) : jsstring :=
  JsString.replaceClass notAlnum (fun _ => js"-")
    (JsString.replaceClass isUmlaut replacer
       (JsString.toLowerCase name)).

(** The deriver as the specification words it: one pass over the
    lower-cased name, each unit transliterated, kept or hyphenated. *)
Definition transliterate (c : N) : jsstring :=
  if c =? JsString.a_uml then js"ae"
  else if c =? JsString.o_uml then js"oe"
  else if c =? JsString.u_uml then js"ue"
  else if c =? JsString.eszett then js"ss"
  else if isAlnum c then [c]
  else [JsString.hyphen].

Definition derive_id_spec (name : jsstring) : jsstring :=
  flat_map transliterate (JsString.toLowerCase name).

(** ** JavaScript arrays: [Array.prototype.sort] *)

Module JsArray.
Section Sort.
Context {A : Type}.

(** A comparator answers with a number; [None] stands for NaN. *)
Variable comparefn : A -> A -> option Z.

(** SortCompare: a NaN answer counts as +0. *)
Definition sortCompare (a b : A) : Z := default 0%Z (comparefn a b).

(** The sort is stable (ECMAScript 2019 on): an element moves behind
    exactly the elements the comparator puts strictly before it.  On a
    set of values where the comparator is consistent every stable sort
    returns the same array ([sort_unique] below); outside such a set the
    order is implementation-defined and this insertion is one
    implementation. *)
Fixpoint insert (x : A) (l : list A) : list A :=
  match l with
  | [] => [x]
  | y :: t =>
    if (sortCompare x y <=? 0)%Z then x :: y :: t else y :: insert x t
  end.

Definition sort (l : list A) : list A := foldr insert [] l.
End Sort.

(** "Consistent comparator for a set of values S", as ECMA-262 words it
    for [Array.prototype.sort]. *)
Record Consistent {A : Type} (S : A -> Prop) (cmp : A -> A -> Z) : Prop := {
  cc_refl : forall a, S a -> cmp a a = 0%Z;
  cc_sym : forall a b, S a -> S b -> cmp a b = 0%Z -> cmp b a = 0%Z;
  cc_trans_eq : forall a b c, S a -> S b -> S c ->
    cmp a b = 0%Z -> cmp b c = 0%Z -> cmp a c = 0%Z;
  cc_trans_lt : forall a b c, S a -> S b -> S c ->
    (cmp a b < 0)%Z -> (cmp b c < 0)%Z -> (cmp a c < 0)%Z;
  cc_trans_gt : forall a b c, S a -> S b -> S c ->
    (cmp a b > 0)%Z -> (cmp b c > 0)%Z -> (cmp a c > 0)%Z
}.

(** What "a stable sort of [l] by [cmp]" asks of a result [l']: the same
    elements, in ascending order, and elements that compare equal in the
    order they had in [l]. *)
Definition StableSort {A : Type} (cmp : A -> A -> Z) (l l' : list A) : Prop :=
  l' ≡ₚ l
  /\ StronglySorted (fun a b => (cmp a b <= 0)%Z) l'
  /\ forall x, x ∈ l ->
       filter (fun y => cmp x y = 0%Z) l' = filter (fun y => cmp x y = 0%Z) l.
End JsArray.

(** ** Products *)

(** Modelled from the spec: the [Product] type of [../types/inventory],
    which is not part of the page; the fields are those of the spec's
    data model and of the literal built in [handleAddProduct].  The
    category is the string the store hands over at run time; [order] is
    an array length plus one, an exact integer. *)
Module Product.
Record t := mk {
  id : jsstring;
  name : jsstring;
  category : jsstring;
  unit : jsstring;
  kgFactor : float;
  order : Z
}.
End Product.

(** [Partial<Product>]: every field may be undefined. *)
Module Draft.
Record t := mk {
  id : option jsstring;
  name : option jsstring;
  category : option jsstring;
  unit : option jsstring;
  kgFactor : option float;
  order : option Z
}.
End Draft.

Definition fruits : jsstring := js"fruits".
Definition vegetables : jsstring := js"vegetables".
Definition salads : jsstring := js"salads".

(** The declared type of [Product.category]:
    'fruits' | 'vegetables' | 'salads'. *)
Definition knownCategory (c : jsstring) : Prop :=
  c = fruits \/ c = vegetables \/ c = salads.

Definition typed (p : Product.t) : Prop := knownCategory (Product.category p).

(** [categoryOrder[c]] as an operand of the subtraction: a number for the
    three keys of the literal; for any other string the lookup gives
    undefined or an inherited member of Object.prototype, and the
    subtraction is NaN either way. *)
Definition categoryOrder (c : jsstring) : option Z :=
  if decide (c = fruits) then Some 1%Z
  else if decide (c = vegetables) then Some 2%Z
  else if decide (c = salads) then Some 3%Z
  else None.

(** *** The sorted sequence (lines 19-27) *)

Section Sorted.
(** [a.localeCompare(b, 'de')]: the platform's German collation. *)
Variable localeCompare_de : jsstring -> jsstring -> Z.

Definition compareProducts (a b : Product.t) : option Z :=
  if decide (Product.category a <> Product.category b) then
    ra ← categoryOrder (Product.category a);
    rb ← categoryOrder (Product.category b);
    Some (ra - rb)%Z
  else Some (localeCompare_de (Product.name a) (Product.name b)).

Definition sortedProducts (products : list Product.t) : list Product.t :=
  JsArray.sort compareProducts products.

(** The composite key of the specification: category rank first, name
    under the collation second. *)
Definition rank (p : Product.t) : Z := default 0%Z (categoryOrder (Product.category p)).

Definition compareKeys (a b : Product.t) : Z :=
  if (rank a =? rank b)%Z
  then localeCompare_de (Product.name a) (Product.name b)
  else (rank a - rank b)%Z.
End Sorted.

(** A small German dictionary collation at primary strength (umlauts file
    with their base vowel, ß with ss, case ignored), one function the
    platform's collation can be. *)
Definition foldUnit (c : N) : jsstring :=
  if c =? JsString.a_uml then js"a"
  else if c =? JsString.o_uml then js"o"
  else if c =? JsString.u_uml then js"u"
  else if c =? JsString.eszett then js"ss"
  else [c].

Definition collationKey (s : jsstring) : list N :=
  flat_map foldUnit (JsString.toLowerCase s).

Fixpoint lexCompare (a b : list N) : Z :=
  match a, b with
  | [], [] => 0%Z
  | [], _ :: _ => (-1)%Z
  | _ :: _, [] => 1%Z
  | x :: a', y :: b' =>
    match N.compare x y with
    | Lt => (-1)%Z
    | Gt => 1%Z
    | Eq => lexCompare a' b'
    end
  end.

Definition germanPrimary (a b : jsstring) : Z :=
  lexCompare (collationKey a) (collationKey b).

(** *** The grouped view (lines 119-125) and what is rendered from it *)

(** The names every object literal inherits from Object.prototype.  Read
    through [acc[k]] each gives a function (or, for __proto__, the
    prototype object): a truthy value without a [push] method. *)
Definition objectPrototypeKeys : list jsstring :=
  [ js"constructor"; js"__defineGetter__"; js"__defineSetter__";
    js"hasOwnProperty"; js"__lookupGetter__"; js"__lookupSetter__";
    js"isPrototypeOf"; js"propertyIsEnumerable"; js"toString";
    js"valueOf"; js"__proto__"; js"toLocaleString" ].

Definition inherited (k : jsstring) : bool :=
  bool_decide (k ∈ objectPrototypeKeys).

(** One call of the reducer.  The accumulator holds the own properties of
    [acc]; [None] is the TypeError of calling [push] on an inherited
    member. *)
Definition groupStep (acc : gmap jsstring (list Product.t)) (product : Product.t)
  : option (gmap jsstring (list Product.t)) :=
  let k := Product.category product in
  match acc !! k with
  | Some group => Some (<[k := group ++ [product]]> acc)
  | None =>
    if inherited k then None
    else Some (<[k := [product]]> acc)
  end.

Definition groupedProducts (sorted : list Product.t)
  : option (gmap jsstring (list Product.t)) :=
  foldl (fun acc product => acc ≫= fun acc => groupStep acc product)
        (Some ∅) sorted.

(** [categoryNames], in the order [Object.keys] lists it. *)
Definition categoryNames : list (jsstring * jsstring) :=
  [ (fruits, js"Obst"); (vegetables, js"Gemüse"); (salads, js"Salate") ].

(** One rendered category: its key, its heading and the product cards
    under it.  [groupedProducts[category]?.map(...)] renders nothing for
    a key without a group, which is the empty list here. *)
Record Group := mkGroup {
  key : jsstring;
  heading : jsstring;
  cards : list Product.t
}.

Inductive Rendered :=
| LoadingSpinner
| ErrorMessage (message : jsstring)
| CatalogView (groups : list Group).

Definition renderGroups (grouped : gmap jsstring (list Product.t)) : list Group :=
  (fun '(category, label) =>
     mkGroup category label (default [] (grouped !! category)))
  <$> categoryNames.

Section Render.
Variable localeCompare_de : jsstring -> jsstring -> Z.

(** The component body from line 19 on; [None] when it throws. *)
Definition render (loading : bool) (error : option jsstring)
    (products : list Product.t) : option Rendered :=
  let sorted := sortedProducts localeCompare_de products in
  if loading then Some LoadingSpinner
  else match error with
  | Some (c :: m) => Some (ErrorMessage (c :: m))
  | _ =>
    grouped ← groupedProducts sorted;
    Some (CatalogView (renderGroups grouped))
  end.
End Render.

(** ** Event handlers *)

Module Page.
Record t := mk {
  products : list Product.t;            (* from useProducts *)
  editingProduct : option Product.t;
  newProduct : Draft.t;
  saved : list (list Product.t);        (* arguments of saveProducts, oldest first *)
  scrollSaves : nat                     (* calls of saveScrollPosition *)
}.
End Page.

(** A handler runs on the page state; an awaited promise that rejects
    ends it where it stands. *)
Inductive outcome (A : Type) : Type :=
| Returned (a : A)
| Rejected.
Arguments Returned {A} a.
Arguments Rejected {A}.

Definition Handler (A : Type) : Type := Page.t -> outcome A * Page.t.

#[global] Instance handler_ret : MRet Handler :=
  fun A a s => (Returned a, s).

#[global] Instance handler_bind : MBind Handler :=
  fun A B k m s =>
    match m s with
    | (Returned a, s') => k a s'
    | (Rejected, s') => (Rejected, s')
    end.

Definition getPage : Handler Page.t := fun s => (Returned s, s).

Definition saveScrollPosition : Handler () := fun s =>
  (Returned (),
   Page.mk (Page.products s) (Page.editingProduct s) (Page.newProduct s)
           (Page.saved s) (S (Page.scrollSaves s))).

Definition setEditingProduct (f : option Product.t -> option Product.t) : Handler () :=
  fun s =>
  (Returned (),
   Page.mk (Page.products s) (f (Page.editingProduct s)) (Page.newProduct s)
           (Page.saved s) (Page.scrollSaves s)).

Definition setNewProduct (f : Draft.t -> Draft.t) : Handler () := fun s =>
  (Returned (),
   Page.mk (Page.products s) (Page.editingProduct s) (f (Page.newProduct s))
           (Page.saved s) (Page.scrollSaves s)).

Definition kg : jsstring := js"kg".

(** The initial and the reset value of [newProduct]. *)
Definition emptyDraft : Draft.t :=
  Draft.mk None None (Some vegetables) (Some (js"Stück")) (Some 1%float) None.

(** [a ?? b] where [a] may be undefined. *)
Definition nullish {A : Type} (a : option A) (b : A) : A := default b a.

(** The two updaters of [handleUnitChange] (lines 34-38 and 41-45). *)
Definition unitChangeDraft (newUnit : jsstring) (prev : Draft.t) : Draft.t :=
  let newKgFactor := if decide (newUnit = kg) then Some 1%float else None in
  Draft.mk (Draft.id prev) (Draft.name prev) (Draft.category prev)
           (Some newUnit)
           (match newKgFactor with Some v => Some v | None => Draft.kgFactor prev end)
           (Draft.order prev).

Definition unitChangeProduct (newUnit : jsstring) (prev : option Product.t)
  : option Product.t :=
  let newKgFactor := if decide (newUnit = kg) then Some 1%float else None in
  match prev with
  | Some prev =>
    Some (Product.mk (Product.id prev) (Product.name prev) (Product.category prev)
                     newUnit
                     (nullish newKgFactor (Product.kgFactor prev))
                     (Product.order prev))
  | None => None
  end.

Definition handleUnitChange (newUnit : jsstring) (isNewProduct : bool) : Handler () :=
  if isNewProduct then setNewProduct (unitChangeDraft newUnit)
  else
    s ← getPage;
    match Page.editingProduct s with
    | Some _ => setEditingProduct (unitChangeProduct newUnit)
    | None => mret ()
    end.

(** The other inputs of the two forms.  [v] is [e.target.value], for the
    number input after [Number(...)]. *)
Inductive Field :=
| NameField (v : jsstring)
| CategoryField (v : jsstring)
| UnitField (v : jsstring)
| KgFactorField (v : float).

Definition onNewChange (f : Field) : Handler () :=
  match f with
  | NameField v => setNewProduct (fun prev =>
      Draft.mk (Draft.id prev) (Some v) (Draft.category prev) (Draft.unit prev)
               (Draft.kgFactor prev) (Draft.order prev))
  | CategoryField v => setNewProduct (fun prev =>
      Draft.mk (Draft.id prev) (Draft.name prev) (Some v) (Draft.unit prev)
               (Draft.kgFactor prev) (Draft.order prev))
  | UnitField v => handleUnitChange v true
  | KgFactorField v => setNewProduct (fun prev =>
      Draft.mk (Draft.id prev) (Draft.name prev) (Draft.category prev) (Draft.unit prev)
               (Some v) (Draft.order prev))
  end.

Definition onEditChange (f : Field) : Handler () :=
  match f with
  | NameField v => setEditingProduct (fun prev =>
      prev ≫= fun prev => Some
        (Product.mk (Product.id prev) v (Product.category prev) (Product.unit prev)
                    (Product.kgFactor prev) (Product.order prev)))
  | CategoryField v => setEditingProduct (fun prev =>
      prev ≫= fun prev => Some
        (Product.mk (Product.id prev) (Product.name prev) v (Product.unit prev)
                    (Product.kgFactor prev) (Product.order prev)))
  | UnitField v => handleUnitChange v false
  | KgFactorField v => setEditingProduct (fun prev =>
      prev ≫= fun prev => Some
        (Product.mk (Product.id prev) (Product.name prev) (Product.category prev)
                    (Product.unit prev) v (Product.order prev)))
  end.

Definition handleEditProduct (product : Product.t) : Handler () :=
  saveScrollPosition;;
  setEditingProduct (fun _ => Some product).

Definition handleCancelEdit : Handler () :=
  setEditingProduct (fun _ => None).

(** The condition of line 71: truthiness for the three strings (undefined
    and the empty string are both falsy), [!== undefined] for kgFactor. *)
Definition truthyField (v : option jsstring) : bool :=
  match v with
  | Some s => JsString.truthy s
  | None => false
  end.

Definition submittable (d : Draft.t) : bool :=
  truthyField (Draft.name d) && truthyField (Draft.category d)
  && truthyField (Draft.unit d) && bool_decide (Draft.kgFactor d <> None).

Section Handlers.
(** Whether the promise of [saveProducts] resolves for a collection. *)
Variable resolves : list Product.t -> bool.

Definition saveProducts (collection : list Product.t) : Handler () := fun s =>
  (if resolves collection then Returned () else Rejected,
   Page.mk (Page.products s) (Page.editingProduct s) (Page.newProduct s)
           (Page.saved s ++ [collection]) (Page.scrollSaves s)).

Definition handleSaveEdit : Handler () :=
  s ← getPage;
  match Page.editingProduct s with
  | Some editingProduct =>
    saveScrollPosition;;
    let updatedProducts :=
      (fun p => if decide (Product.id p = Product.id editingProduct)
                then editingProduct else p) <$> Page.products s in
    saveProducts updatedProducts;;
    setEditingProduct (fun _ => None)
  | None => mret ()
  end.

Definition handleAddProduct : Handler () :=
  s ← getPage;
  let newProduct := Page.newProduct s in
  if submittable newProduct then
    match Draft.name newProduct, Draft.category newProduct,
          Draft.unit newProduct, Draft.kgFactor newProduct with
    | Some name, Some category, Some unit, Some kgFactor =>
      saveScrollPosition;;
      let id := derive_id name in
      let newProductComplete :=
        Product.mk id name category unit kgFactor
                   (Z.of_nat (length (Page.products s)) + 1)%Z in
      let updatedProducts := Page.products s ++ [newProductComplete] in
      saveProducts updatedProducts;;
      setNewProduct (fun _ => emptyDraft)
    | _, _, _, _ => mret ()
    end
  else mret ().

(** [confirmed] is the answer of [window.confirm]. *)
Definition handleDeleteProduct (confirmed : bool) (productId : jsstring) : Handler () :=
  if confirmed then
    s ← getPage;
    saveScrollPosition;;
    let updatedProducts :=
      filter (fun p => Product.id p <> productId) (Page.products s) in
    saveProducts updatedProducts
  else mret ().
End Handlers.

(** The collection a handler run handed to [saveProducts], if any. *)
Definition persisted (before : Page.t) (after : outcome () * Page.t)
  : list (list Product.t) :=
  drop (length (Page.saved before)) (Page.saved after.2).

(** A run of changes to the inputs of the edit form, first change first. *)
Definition editSession (changes : list Field) (s : Page.t) : Page.t :=
  foldl (fun s f => (onEditChange f s).2) s changes.

(** ** Sample data (the examples of the specification) *)

Definition apfel : Product.t :=
  Product.mk (js"apfel") (js"Apfel") fruits kg 1%float 1%Z.

Definition karotteDraft : Draft.t :=
  Draft.mk None (Some (js"Karotte")) (Some vegetables) (Some (js"Stück"))
           (Some 5%float) None.

Definition karotte : Product.t :=
  Product.mk (js"karotte") (js"Karotte") vegetables (js"Stück") 5%float 2%Z.

(** A vegetable sold by the piece, named [name]. *)
Definition vegetable (name : jsstring) (order : Z) : Product.t :=
  Product.mk (derive_id name) name vegetables (js"Stück") 1%float order.

(** A second draft whose name derives the identifier of [apfel]. *)
Definition apfelAgainDraft : Draft.t :=
  Draft.mk None (Some (js"APFEL")) (Some fruits) (Some kg) (Some 1%float) None.

Definition apfelAgain : Product.t :=
  Product.mk (js"apfel") (js"APFEL") fruits kg 1%float 2%Z.

(** A record as the store may hand it over, with a category outside the
    declared type. *)
Definition stray (category : jsstring) : Product.t :=
  Product.mk (js"x") (js"X") category kg 1%float 1%Z.

Definition pageOf (products : list Product.t) (editing : option Product.t)
    (draft : Draft.t) : Page.t :=
  Page.mk products editing draft [] 0.

(** ** The wording of the specification for the delete path *)

(** "Exactly one record, the one matched by the id, has been removed and
    every other record is unchanged." *)
Definition removesExactlyOne (productId : jsstring)
    (before after : list Product.t) : Prop :=
  exists l1 p l2,
    before = l1 ++ p :: l2 /\ Product.id p = productId /\ after = l1 ++ l2.

(** ** The forms and the cards as the browser shows them *)

(** The options of the two category selects (lines 156-158, 229-231) and
    of the two unit selects (lines 169-171, 242-244). *)
Definition categoryOptions : list jsstring := [fruits; vegetables; salads].

Definition unitOptions : list jsstring := [js"Stück"; kg; js"Bund"].

(** [disabled] of the two kgFactor inputs (lines 185 and 257) and of the
    add button (line 191). *)
Definition newKgFactorDisabled (d : Draft.t) : bool :=
  bool_decide (Draft.unit d = Some kg).

Definition editKgFactorDisabled (p : Product.t) : bool :=
  bool_decide (Product.unit p = kg).

Definition addDisabled (d : Draft.t) : bool :=
  negb (truthyField (Draft.name d)).

(** [editingProduct?.id === product.id] (line 209): whether a card shows
    the edit form. *)
Definition inEditMode (editing : option Product.t) (product : Product.t) : bool :=
  match editing with
  | Some e => bool_decide (Product.id e = Product.id product)
  | None => false
  end.

(** [categoryNames[c]] (lines 205 and 285), for the own properties of the
    literal. *)
Definition categoryLabel (c : jsstring) : option jsstring :=
  snd <$> find (fun kv => bool_decide (kv.1 = c)) categoryNames.

(** A change a form can report: a select reports one of its options, a
    disabled input reports nothing. *)
Definition offeredNew (d : Draft.t) (f : Field) : bool :=
  match f with
  | NameField _ => true
  | CategoryField v => bool_decide (v ∈ categoryOptions)
  | UnitField v => bool_decide (v ∈ unitOptions)
  | KgFactorField _ => negb (newKgFactorDisabled d)
  end.

Definition offeredEdit (p : Product.t) (f : Field) : bool :=
  match f with
  | NameField _ => true
  | CategoryField v => bool_decide (v ∈ categoryOptions)
  | UnitField v => bool_decide (v ∈ unitOptions)
  | KgFactorField _ => negb (editKgFactorDisabled p)
  end.

(** [useProducts] hands the component another collection; the state held
    by [useState] stays. *)
Definition deliver (products : list Product.t) : Handler () := fun s =>
  (Returned (),
   Page.mk products (Page.editingProduct s) (Page.newProduct s)
           (Page.saved s) (Page.scrollSaves s)).

(** What can happen to the page. *)
Inductive Event :=
| ChangeNew (f : Field)
| ChangeEdit (f : Field)
| ClickAdd
| ClickEdit (product : Product.t)
| ClickSave
| ClickCancel
| ClickDelete (productId : jsstring) (confirmed : bool)
| Deliver (products : list Product.t).

Section Events.
Variable resolves : list Product.t -> bool.

Definition dispatch (e : Event) : Handler () :=
  match e with
  | ChangeNew f => onNewChange f
  | ChangeEdit f => onEditChange f
  | ClickAdd => handleAddProduct resolves
  | ClickEdit product => handleEditProduct product
  | ClickSave => handleSaveEdit resolves
  | ClickCancel => handleCancelEdit
  | ClickDelete productId confirmed =>
    handleDeleteProduct resolves confirmed productId
  | Deliver products => deliver products
  end.

(** The page after a run of events; a handler that ends on a rejected
    promise leaves the page where it stands and the next event finds it
    there. *)
Definition run (events : list Event) (s : Page.t) : Page.t :=
  foldl (fun s e => (dispatch e s).2) s events.
End Events.

(** The events the rendered page offers in a state: the buttons of a card
    belong to a product of the collection, the save and cancel buttons to
    an open edit form, the add button is enabled. *)
Definition offered (s : Page.t) (e : Event) : Prop :=
  match e with
  | ChangeNew f => offeredNew (Page.newProduct s) f = true
  | ChangeEdit f =>
    exists p, Page.editingProduct s = Some p /\ offeredEdit p f = true
  | ClickAdd => addDisabled (Page.newProduct s) = false
  | ClickEdit product => product ∈ Page.products s
  | ClickSave | ClickCancel => is_Some (Page.editingProduct s)
  | ClickDelete productId _ => productId ∈ (Product.id <$> Page.products s)
  | Deliver _ => True
  end.

Fixpoint offeredRun (resolves : list Product.t -> bool)
    (s : Page.t) (events : list Event) : Prop :=
  match events with
  | [] => True
  | e :: events =>
    offered s e /\ offeredRun resolves (dispatch resolves e s).2 events
  end.

(** The page as it is first rendered over a collection. *)
Definition initialPage (products : list Product.t) : Page.t :=
  pageOf products None emptyDraft.

(** ** Shapes of records and drafts *)

#[global] Instance knownCategory_dec c : Decision (knownCategory c).
Proof. unfold knownCategory. apply _. Defined.

#[global] Instance typed_dec p : Decision (typed p).
Proof. unfold typed. apply _. Defined.

(** A record as the forms of the page produce it: a category and a unit
    among the options, a non-empty id, and kgFactor 1 for the unit kg. *)
Definition wellFormed (p : Product.t) : Prop :=
  Product.id p <> []
  /\ Product.category p ∈ categoryOptions
  /\ Product.unit p ∈ unitOptions
  /\ (Product.unit p = kg -> Product.kgFactor p = 1%float).

(** A new-product draft as the form produces it. *)
Definition formDraft (d : Draft.t) : Prop :=
  (exists c, Draft.category d = Some c /\ c ∈ categoryOptions)
  /\ (exists u, Draft.unit d = Some u /\ u ∈ unitOptions)
  /\ (exists k, Draft.kgFactor d = Some k)
  /\ (Draft.unit d = Some kg -> Draft.kgFactor d = Some 1%float).

(** A draft that passes the condition of [handleAddProduct], with the
    values it holds. *)
Definition entered (d : Draft.t) (name category unit : jsstring)
    (kgFactor : float) : Prop :=
  Draft.name d = Some name /\ name <> []
  /\ Draft.category d = Some category /\ category <> []
  /\ Draft.unit d = Some unit /\ unit <> []
  /\ Draft.kgFactor d = Some kgFactor.

(** The record [handleAddProduct] builds (lines 86-93). *)
Definition newProductComplete (products : list Product.t)
    (name category unit : jsstring) (kgFactor : float) : Product.t :=
  Product.mk (derive_id name) name category unit kgFactor
             (Z.of_nat (length products) + 1)%Z.

(** What the page keeps true of its state as long as the store hands it
    well-formed records: the collection, the two drafts and everything
    handed to [saveProducts] so far are well formed. *)
Definition pageInvariant (s : Page.t) : Prop :=
  Forall wellFormed (Page.products s)
  /\ formDraft (Page.newProduct s)
  /\ (forall p, Page.editingProduct s = Some p -> wellFormed p)
  /\ Forall (Forall wellFormed) (Page.saved s).

(** The events whose handler holds a call of [saveProducts]: add, save
    and a confirmed delete. *)
Definition mayPersist (e : Event) : bool :=
  match e with
  | ClickAdd | ClickSave | ClickDelete _ true => true
  | _ => false
  end.

(** A run of the new-product form: a name, a unit and a factor are
    entered, then the add button is clicked. *)
Definition enterAndAdd (name unit : jsstring) (kgFactor : float) : list Event :=
  [ ChangeNew (NameField name); ChangeNew (UnitField unit);
    ChangeNew (KgFactorField kgFactor); ClickAdd ].

(** * Properties *)

(** ** Literals *)

Example lit_Muesli : js"Müsli" = [77; 252; 115; 108; 105].
Proof. reflexivity. Qed.

Example lit_Aepfel :
  js"Äpfel & Co." = [196; 112; 102; 101; 108; 32; 38; 32; 67; 111; 46].
Proof. reflexivity. Qed.

Example lit_surrogates : js"𝄞" = [0xD834; 0xDD1E].
Proof. reflexivity. Qed.

(** ** The identifier deriver *)

Lemma flat_map_flat_map {A B C : Type} (f : A -> list B) (g : B -> list C) l :
  flat_map g (flat_map f l) = flat_map (fun x => flat_map g (f x)) l.
Proof.
  induction l as [|x l IH]; simpl; [reflexivity|].
  rewrite flat_map_app. now f_equal.
Qed.

Lemma flat_map_pointwise {A B : Type} (f g : A -> list B) l :
  (forall x, f x = g x) -> flat_map f l = flat_map g l.
Proof. intros E. induction l; simpl; [reflexivity|]. now rewrite E, IHl. Qed.

(** The two replace passes on one lower-cased unit. *)
Lemma two_passes_unit c :
  JsString.replaceClass notAlnum (fun _ => js"-")
    (if isUmlaut c then replacer [c] else [c]) = transliterate c.
Proof.
  unfold transliterate, isUmlaut, replacer, chars.
  destruct (N.eqb_spec c JsString.a_uml) as [->|Ha]; [reflexivity|].
  destruct (N.eqb_spec c JsString.o_uml) as [->|Ho]; [reflexivity|].
  destruct (N.eqb_spec c JsString.u_uml) as [->|Hu]; [reflexivity|].
  destruct (N.eqb_spec c JsString.eszett) as [->|Hs]; [reflexivity|].
  cbn -[isAlnum]. unfold notAlnum.
  destruct (isAlnum c); reflexivity.
Qed.

Lemma derive_id_refines name : derive_id name = derive_id_spec name.
Proof.
  unfold derive_id, derive_id_spec.
  unfold JsString.replaceClass at 2.
  unfold JsString.replaceClass at 1.
  rewrite flat_map_flat_map.
  apply flat_map_pointwise. intros c.
  apply (two_passes_unit c).
Qed.

(** Every unit of an identifier is a lower-case letter, a digit or a hyphen. *)
Lemma transliterate_alphabet c :
  Forall (fun u => isAlnum u = true \/ u = JsString.hyphen) (transliterate c).
Proof.
  assert (two : forall u v, isAlnum u = true -> isAlnum v = true ->
            Forall (fun u => isAlnum u = true \/ u = JsString.hyphen) [u; v])
    by (intros u v Hu Hv; repeat apply Forall_cons; auto).
  unfold transliterate.
  destruct (c =? JsString.a_uml); [now apply two|].
  destruct (c =? JsString.o_uml); [now apply two|].
  destruct (c =? JsString.u_uml); [now apply two|].
  destruct (c =? JsString.eszett); [now apply two|].
  destruct (isAlnum c) eqn:E; apply Forall_cons; auto.
Qed.

(** A unit becomes a hyphen exactly when it is outside [a-z0-9äöüß], and
    then it becomes one hyphen. *)
Lemma transliterate_hyphens c :
  length (filter (fun u => u = JsString.hyphen) (transliterate c)) =
  if isAlnum c || isUmlaut c then 0%nat else 1%nat.
Proof.
  unfold transliterate, isUmlaut.
  destruct (N.eqb_spec c JsString.a_uml) as [->|Ha]; [reflexivity|].
  destruct (N.eqb_spec c JsString.o_uml) as [->|Ho]; [reflexivity|].
  destruct (N.eqb_spec c JsString.u_uml) as [->|Hu]; [reflexivity|].
  destruct (N.eqb_spec c JsString.eszett) as [->|Hs]; [reflexivity|].
  destruct (isAlnum c) eqn:E; cbn [orb].
  - rewrite filter_cons_False; [reflexivity|].
    intros ->. discriminate E.
  - reflexivity.
Qed.

(** C3: the identifier deriver lower-cases the name, turns ä, ö, ü, ß into
    ae, oe, ue, ss and every other unit outside [a-z0-9] into one hyphen
    each (no collapsing); "Müsli" gives "muesli", "Äpfel & Co." gives
    "aepfel---co-"; the function is defined on every string and the empty
    name gives the empty identifier. *)
Theorem derive_id_correct :
  (forall name, derive_id name = flat_map transliterate (JsString.toLowerCase name))
  /\ (forall name,
        length (filter (fun u => u = JsString.hyphen) (derive_id name)) =
        length (filter (fun c => isAlnum c || isUmlaut c = false)
                       (JsString.toLowerCase name)))
  /\ derive_id (js"Müsli") = js"muesli"
  /\ derive_id (js"Äpfel & Co.") = js"aepfel---co-"
  /\ derive_id [] = [].
Proof.
  split; [exact derive_id_refines|].
  split; [|repeat split; reflexivity].
  intros name. rewrite derive_id_refines. unfold derive_id_spec.
  induction (JsString.toLowerCase name) as [|c l IH]; [reflexivity|].
  cbn [flat_map]. rewrite filter_app, length_app, IH, transliterate_hyphens.
  destruct (isAlnum c || isUmlaut c) eqn:E.
  - rewrite filter_cons_False; [reflexivity|]. rewrite E. discriminate.
  - rewrite filter_cons_True; [reflexivity|]. exact E.
Qed.

(** ** [Array.prototype.sort] on a set where the comparator is consistent *)

Local Open Scope Z_scope.

Section SortFacts.
Context {A : Type} (comparefn : A -> A -> option Z) (S : A -> Prop).

Local Abbreviation cmp := (JsArray.sortCompare comparefn).
Local Abbreviation le := (fun a b => cmp a b <= 0).
Local Abbreviation eqv x := (fun y => cmp x y = 0).

Lemma insert_perm x l : JsArray.insert comparefn x l ≡ₚ x :: l.
Proof.
  induction l as [|y t IH]; simpl; [reflexivity|].
  destruct (cmp x y <=? 0)%Z; [reflexivity|].
  rewrite IH. apply Permutation_swap.
Qed.

Lemma sort_perm l : JsArray.sort comparefn l ≡ₚ l.
Proof.
  induction l as [|x l IH]; simpl; [reflexivity|].
  rewrite insert_perm. now rewrite IH.
Qed.

Lemma sort_length l : length (JsArray.sort comparefn l) = length l.
Proof. apply Permutation_length, sort_perm. Qed.

Lemma sort_Forall (P : A -> Prop) l : Forall P l -> Forall P (JsArray.sort comparefn l).
Proof. intros H. now rewrite sort_perm. Qed.

Hypothesis consistent : JsArray.Consistent S cmp.

Lemma cmp_flip_gt a b : S a -> S b -> cmp a b > 0 -> cmp b a < 0.
Proof.
  intros Ha Hb H.
  destruct (Z.lt_total (cmp b a) 0) as [Hlt|[Heq|Hgt]]; [exact Hlt| |].
  - pose proof (JsArray.cc_sym _ _ consistent b a Hb Ha Heq). lia.
  - pose proof (JsArray.cc_trans_gt _ _ consistent a b a Ha Hb Ha H ltac:(lia)).
    pose proof (JsArray.cc_refl _ _ consistent a Ha). lia.
Qed.

Lemma cmp_flip_lt a b : S a -> S b -> cmp a b < 0 -> cmp b a > 0.
Proof.
  intros Ha Hb H.
  destruct (Z.lt_total (cmp b a) 0) as [Hlt|[Heq|Hgt]]; [| |lia].
  - pose proof (JsArray.cc_trans_lt _ _ consistent a b a Ha Hb Ha H Hlt).
    pose proof (JsArray.cc_refl _ _ consistent a Ha). lia.
  - pose proof (JsArray.cc_sym _ _ consistent b a Hb Ha Heq). lia.
Qed.

Lemma cmp_le_trans a b c :
  S a -> S b -> S c -> (cmp a b <= 0)%Z -> (cmp b c <= 0)%Z -> (cmp a c <= 0)%Z.
Proof.
  intros Ha Hb Hc Hab Hbc.
  destruct (Z.le_gt_cases (cmp a c) 0) as [|Hac]; [assumption|exfalso].
  assert (Hca : (cmp c a < 0)%Z) by (apply cmp_flip_gt; [assumption..|lia]).
  destruct (Z.eq_dec (cmp a b) 0) as [Eab|Nab];
  destruct (Z.eq_dec (cmp b c) 0) as [Ebc|Nbc].
  - pose proof (JsArray.cc_trans_eq _ _ consistent a b c Ha Hb Hc Eab Ebc). lia.
  - pose proof (JsArray.cc_trans_lt _ _ consistent b c a Hb Hc Ha ltac:(lia) Hca).
    pose proof (JsArray.cc_sym _ _ consistent a b Ha Hb Eab). lia.
  - pose proof (JsArray.cc_trans_lt _ _ consistent c a b Hc Ha Hb Hca ltac:(lia)).
    pose proof (JsArray.cc_sym _ _ consistent b c Hb Hc Ebc). lia.
  - pose proof (JsArray.cc_trans_lt _ _ consistent a b c Ha Hb Hc ltac:(lia) ltac:(lia)).
    lia.
Qed.

Lemma eqv_not_both x y z :
  S x -> S y -> S z -> (cmp x y > 0)%Z -> cmp z x = 0%Z -> cmp z y = 0%Z -> False.
Proof.
  intros Hx Hy Hz Hxy Ezx Ezy.
  pose proof (JsArray.cc_sym _ _ consistent z x Hz Hx Ezx) as Exz.
  pose proof (JsArray.cc_trans_eq _ _ consistent x z y Hx Hz Hy Exz Ezy). lia.
Qed.

Lemma insert_sorted x l :
  S x -> Forall S l -> StronglySorted le l ->
  StronglySorted le (JsArray.insert comparefn x l).
Proof.
  intros Hx. induction l as [|y t IH]; intros HS Hs; simpl.
  - repeat constructor.
  - apply Forall_cons in HS as [Hy Ht].
    apply StronglySorted_inv in Hs as [Hst Hyt].
    destruct (Z.leb_spec (cmp x y) 0) as [Hle|Hgt].
    + apply SSorted_cons; [apply SSorted_cons; assumption|].
      apply Forall_cons; split; [assumption|].
      rewrite Forall_forall in Hyt, Ht |- *. intros z Hz.
      apply (cmp_le_trans x y z); auto.
    + apply SSorted_cons; [auto|].
      rewrite insert_perm. apply Forall_cons; split; [|assumption].
      apply Z.lt_le_incl, cmp_flip_gt; [assumption..|lia].
Qed.

Lemma sort_sorted l :
  Forall S l -> StronglySorted le (JsArray.sort comparefn l).
Proof.
  induction l as [|x l IH]; intros HS; simpl; [constructor|].
  apply Forall_cons in HS as [Hx Hl].
  apply insert_sorted; [assumption|now apply sort_Forall|auto].
Qed.

Lemma insert_stable z x l :
  S z -> S x -> Forall S l ->
  filter (eqv z) (JsArray.insert comparefn x l) = filter (eqv z) (x :: l).
Proof.
  intros Hz Hx. induction l as [|y t IH]; intros HS; simpl; [reflexivity|].
  apply Forall_cons in HS as [Hy Ht].
  destruct (Z.leb_spec (cmp x y) 0) as [Hle|Hgt]; [reflexivity|].
  rewrite (filter_cons _ y), IH by assumption.
  rewrite (filter_cons _ x), (filter_cons _ x), (filter_cons _ y).
  repeat case_decide; try reflexivity.
  exfalso. apply (eqv_not_both x y z); auto. lia.
Qed.

Lemma sort_stable z l :
  S z -> Forall S l ->
  filter (eqv z) (JsArray.sort comparefn l) = filter (eqv z) l.
Proof.
  intros Hz. induction l as [|x l IH]; intros HS; simpl; [reflexivity|].
  apply Forall_cons in HS as [Hx Hl].
  rewrite insert_stable by (try assumption; now apply sort_Forall).
  rewrite !(filter_cons _ x), IH by assumption. reflexivity.
Qed.

(** The sort is a stable sort in the sense of [JsArray.StableSort]. *)
Lemma sort_StableSort l :
  Forall S l -> JsArray.StableSort cmp l (JsArray.sort comparefn l).
Proof.
  intros HS. split; [apply sort_perm|]. split; [now apply sort_sorted|].
  intros x Hx. apply sort_stable; [|assumption].
  rewrite Forall_forall in HS. auto.
Qed.

(** Two sorted arrays that agree on the class of each of their elements
    are the same array. *)
Lemma sorted_classes_unique l1 : forall l2,
  Forall S l1 -> Forall S l2 ->
  StronglySorted le l1 -> StronglySorted le l2 ->
  (forall x, x ∈ l1 \/ x ∈ l2 -> filter (eqv x) l1 = filter (eqv x) l2) ->
  l1 = l2.
Proof.
  induction l1 as [|a t1 IH]; intros l2 HS1 HS2 Hs1 Hs2 Hcl.
  - destruct l2 as [|b t2]; [reflexivity|exfalso].
    apply Forall_cons in HS2 as [Hb _].
    specialize (Hcl b (or_intror (list_elem_of_here b t2))).
    rewrite filter_nil, filter_cons_True in Hcl; [discriminate|].
    apply (JsArray.cc_refl _ _ consistent b Hb).
  - apply Forall_cons in HS1 as [Ha Ht1].
    destruct l2 as [|b t2].
    { exfalso. specialize (Hcl a (or_introl (list_elem_of_here a t1))).
      rewrite filter_nil, filter_cons_True in Hcl; [discriminate|].
      apply (JsArray.cc_refl _ _ consistent a Ha). }
    apply Forall_cons in HS2 as [Hb Ht2].
    apply StronglySorted_inv in Hs1 as [Hst1 Hat1].
    apply StronglySorted_inv in Hs2 as [Hst2 Hbt2].
    assert (Haa := JsArray.cc_refl _ _ consistent a Ha).
    assert (Hbb := JsArray.cc_refl _ _ consistent b Hb).
    (* a occurs in the second array, b in the first *)
    assert (Ha2 : a ∈ b :: t2).
    { pose proof (Hcl a (or_introl (list_elem_of_here a t1))) as E.
      rewrite filter_cons_True in E by assumption.
      assert (a ∈ filter (eqv a) (b :: t2)) as Hin by (rewrite <- E; left).
      now apply list_elem_of_filter in Hin as [_ ?]. }
    assert (Hb1 : b ∈ a :: t1).
    { pose proof (Hcl b (or_intror (list_elem_of_here b t2))) as E.
      rewrite (filter_cons_True _ b t2) in E by assumption.
      assert (b ∈ filter (eqv b) (a :: t1)) as Hin by (rewrite E; left).
      now apply list_elem_of_filter in Hin as [_ ?]. }
    assert (Hba : cmp b a <= 0).
    { apply elem_of_cons in Ha2 as [->|Hin]; [lia|].
      rewrite Forall_forall in Hbt2. auto. }
    assert (Hab : cmp a b <= 0).
    { apply elem_of_cons in Hb1 as [->|Hin]; [lia|].
      rewrite Forall_forall in Hat1. auto. }
    assert (Eab : cmp a b = 0).
    { destruct (Z.eq_dec (cmp a b) 0) as [|N]; [assumption|exfalso].
      pose proof (cmp_flip_lt a b Ha Hb ltac:(lia)). lia. }
    assert (a = b) as <-.
    { pose proof (Hcl a (or_introl (list_elem_of_here a t1))) as E.
      rewrite !filter_cons_True in E by assumption. congruence. }
    f_equal. apply IH; try assumption.
    intros x Hx.
    assert (Hx' : x ∈ a :: t1 \/ x ∈ a :: t2)
      by (destruct Hx; [left|right]; now right).
    pose proof (Hcl x Hx') as E.
    rewrite !(filter_cons _ a) in E. case_decide; congruence.
Qed.

(** Any stable sort of [l] is the array the model returns. *)
Lemma sort_unique l l' :
  Forall S l -> JsArray.StableSort cmp l l' -> l' = JsArray.sort comparefn l.
Proof.
  intros HS (Hp & Hs & Hst).
  assert (HS' : Forall S l') by now rewrite Hp.
  apply sorted_classes_unique; try assumption.
  - now apply sort_Forall.
  - now apply sort_sorted.
  - intros x Hx.
    assert (Hin : x ∈ l).
    { destruct Hx as [Hx|Hx]; [now rewrite <- Hp|now rewrite <- (sort_perm l)]. }
    rewrite sort_stable; [now apply Hst| |assumption].
    rewrite Forall_forall in HS. auto.
Qed.
End SortFacts.

(** ** The sorted sequence *)

Lemma categoryOrder_known c :
  knownCategory c <-> exists r, categoryOrder c = Some r.
Proof.
  unfold knownCategory, categoryOrder. split.
  - intros [-> | [-> | ->]]; eexists; reflexivity.
  - intros [r H]. repeat case_decide; auto. discriminate.
Qed.

Lemma categoryOrder_inj c1 c2 r :
  categoryOrder c1 = Some r -> categoryOrder c2 = Some r -> c1 = c2.
Proof.
  unfold categoryOrder. repeat case_decide; congruence.
Qed.

Lemma rank_known p : typed p -> categoryOrder (Product.category p) = Some (rank p).
Proof.
  intros H. apply categoryOrder_known in H as [r E]. unfold rank. now rewrite E.
Qed.

Lemma rank_range p : typed p -> 1 <= rank p <= 3.
Proof.
  intros H. pose proof (rank_known p H) as E. revert E.
  unfold categoryOrder. repeat case_decide; intros [= <-] || discriminate; lia.
Qed.

Section SortedFacts.
Variable localeCompare_de : jsstring -> jsstring -> Z.

Local Abbreviation cmp := (JsArray.sortCompare (compareProducts localeCompare_de)).

(** On typed products the comparator of the page answers as the
    comparison of the composite keys does. *)
Lemma compareProducts_keys a b :
  typed a -> typed b -> cmp a b = compareKeys localeCompare_de a b.
Proof.
  intros Ha Hb. unfold JsArray.sortCompare, compareProducts, compareKeys.
  pose proof (rank_known a Ha) as Ea. pose proof (rank_known b Hb) as Eb.
  case_decide as Hc.
  - rewrite Ea, Eb. cbn. destruct (Z.eqb_spec (rank a) (rank b)) as [E|]; [|reflexivity].
    exfalso. apply Hc. rewrite <- E in Eb. apply (categoryOrder_inj _ _ _ Ea Eb).
  - assert (E : Product.category a = Product.category b)
      by (destruct (decide (Product.category a = Product.category b)); tauto).
    unfold rank. rewrite E, Z.eqb_refl. reflexivity.
Qed.

Hypothesis collation : JsArray.Consistent (fun _ => True) localeCompare_de.

Lemma compareKeys_consistent :
  JsArray.Consistent typed (compareKeys localeCompare_de).
Proof.
  destruct collation as [Hr Hs He Hl Hg].
  split; unfold compareKeys.
  - intros a _. rewrite Z.eqb_refl. now apply Hr.
  - intros a b _ _. rewrite (Z.eqb_sym (rank b)).
    destruct (Z.eqb_spec (rank a) (rank b)); [now apply Hs|lia].
  - intros a b c _ _ _.
    destruct (Z.eqb_spec (rank a) (rank b)) as [->|]; [|lia].
    destruct (Z.eqb_spec (rank b) (rank c)); [now apply He|lia].
  - intros a b c _ _ _.
    destruct (Z.eqb_spec (rank a) (rank b)) as [E1|N1];
    destruct (Z.eqb_spec (rank b) (rank c)) as [E2|N2];
    destruct (Z.eqb_spec (rank a) (rank c)) as [E3|N3]; try lia.
    now apply Hl.
  - intros a b c _ _ _.
    destruct (Z.eqb_spec (rank a) (rank b)) as [E1|N1];
    destruct (Z.eqb_spec (rank b) (rank c)) as [E2|N2];
    destruct (Z.eqb_spec (rank a) (rank c)) as [E3|N3]; try lia.
    now apply Hg.
Qed.

Lemma compareProducts_consistent : JsArray.Consistent typed cmp.
Proof.
  destruct compareKeys_consistent as [Hr Hs He Hl Hg].
  split; intros *; intros; rewrite compareProducts_keys in * by assumption; eauto.
Qed.

Lemma StableSort_ext {A : Type} (c1 c2 : A -> A -> Z) (l l' : list A) :
  (forall a b, a ∈ l -> b ∈ l -> c1 a b = c2 a b) ->
  JsArray.StableSort c1 l l' -> JsArray.StableSort c2 l l'.
Proof.
  intros E (Hp & Hs & Hst). split; [assumption|]. split.
  - clear Hst. assert (Hin : forall a, a ∈ l' -> a ∈ l) by (intros a; now rewrite Hp).
    clear Hp. induction Hs as [|a t Hs IH Hat]; constructor.
    + apply IH. intros b Hb. apply Hin. now right.
    + rewrite Forall_forall in Hat |- *. intros b Hb.
      rewrite <- E; [auto|apply Hin; left|apply Hin; now right].
  - intros x Hx. specialize (Hst x Hx).
    assert (F : forall m : list A, (forall y, y ∈ m -> y ∈ l) ->
              filter (fun y => c2 x y = 0) m = filter (fun y => c1 x y = 0) m).
    { induction m as [|y m IHm]; intros Hm; [reflexivity|].
      rewrite !(filter_cons _ y), IHm by (intros; apply Hm; now right).
      rewrite (E x y Hx) by (apply Hm; left). reflexivity. }
    rewrite !F; [assumption|auto|intros y; now rewrite Hp].
Qed.

Lemma sortedProducts_StableSort products :
  Forall typed products ->
  JsArray.StableSort (compareKeys localeCompare_de) products
                     (sortedProducts localeCompare_de products).
Proof.
  intros HT. apply (StableSort_ext cmp).
  - rewrite Forall_forall in HT. intros. apply compareProducts_keys; auto.
  - apply (sort_StableSort _ typed compareProducts_consistent _ HT).
Qed.

Lemma sortedProducts_unique products l' :
  Forall typed products ->
  JsArray.StableSort (compareKeys localeCompare_de) products l' ->
  l' = sortedProducts localeCompare_de products.
Proof.
  intros HT H.
  apply (sort_unique _ typed compareProducts_consistent _ _ HT).
  apply (StableSort_ext (compareKeys localeCompare_de)); [|assumption].
  rewrite Forall_forall in HT. intros. symmetry. apply compareProducts_keys; auto.
Qed.

Lemma compareProducts_same_category a b :
  Product.category a = Product.category b ->
  cmp a b = localeCompare_de (Product.name a) (Product.name b).
Proof.
  intros E. unfold JsArray.sortCompare, compareProducts.
  case_decide; [tauto|reflexivity].
Qed.

Lemma sortedProducts_three c oel apfel zucchini :
  Product.category oel = c -> Product.category apfel = c ->
  Product.category zucchini = c ->
  Product.name oel = js"Öl" -> Product.name apfel = js"Apfel" ->
  Product.name zucchini = js"Zucchini" ->
  localeCompare_de (js"Apfel") (js"Öl") < 0 ->
  localeCompare_de (js"Öl") (js"Zucchini") < 0 ->
  sortedProducts localeCompare_de [oel; apfel; zucchini] = [apfel; oel; zucchini].
Proof.
  intros Co Ca Cz No Na Nz Hao Hoz.
  destruct collation as [Hr Hs He Hl Hg].
  assert (Haz := Hl _ _ _ I I I Hao Hoz).
  assert (Hoa : localeCompare_de (js"Öl") (js"Apfel") > 0).
  { apply (cmp_flip_lt (fun a b => Some (localeCompare_de a b)) (fun _ => True));
      [split; assumption|exact I|exact I|exact Hao]. }
  assert (Eaz : cmp apfel zucchini <= 0)
    by (rewrite compareProducts_same_category, Na, Nz by congruence; lia).
  assert (Eoa : cmp oel apfel > 0)
    by (rewrite compareProducts_same_category, No, Na by congruence; lia).
  assert (Eoz : cmp oel zucchini <= 0)
    by (rewrite compareProducts_same_category, No, Nz by congruence; lia).
  unfold sortedProducts, JsArray.sort. cbn [foldr JsArray.insert].
  destruct (Z.leb_spec (cmp apfel zucchini) 0); [|lia].
  cbn [JsArray.insert].
  destruct (Z.leb_spec (cmp oel apfel) 0); [lia|].
  destruct (Z.leb_spec (cmp oel zucchini) 0); [|lia].
  reflexivity.
Qed.
End SortedFacts.

(** ** A collation to instantiate the platform's with *)

Lemma lexCompare_refl a : lexCompare a a = 0.
Proof. induction a as [|x a IH]; simpl; [reflexivity|]. now rewrite N.compare_refl. Qed.

Lemma lexCompare_eq a : forall b, lexCompare a b = 0 -> a = b.
Proof.
  induction a as [|x a IH]; intros [|y b]; simpl; try discriminate; [reflexivity|].
  destruct (N.compare_spec x y) as [->| |]; try discriminate.
  intros H. f_equal. now apply IH.
Qed.

Lemma lexCompare_antisym a : forall b, lexCompare b a = - lexCompare a b.
Proof.
  induction a as [|x a IH]; intros [|y b]; simpl; try reflexivity.
  rewrite (N.compare_antisym x y).
  destruct (N.compare x y); simpl; auto.
Qed.

Lemma lexCompare_trans_lt a : forall b c,
  lexCompare a b < 0 -> lexCompare b c < 0 -> lexCompare a c < 0.
Proof.
  induction a as [|x a IH]; intros [|y b] [|z c]; simpl; try lia.
  destruct (N.compare_spec x y) as [->|Hxy|Hxy]; try lia.
  - destruct (N.compare_spec y z) as [->|Hyz|Hyz]; try lia. apply IH.
  - destruct (N.compare_spec y z) as [->|Hyz|Hyz]; try lia.
    + destruct (N.compare_spec x z); lia.
    + destruct (N.compare_spec x z); lia.
Qed.

Lemma germanPrimary_consistent : JsArray.Consistent (fun _ => True) germanPrimary.
Proof.
  unfold germanPrimary. split.
  - intros a _. apply lexCompare_refl.
  - intros a b _ _ H. apply lexCompare_eq in H. rewrite H. apply lexCompare_refl.
  - intros a b c _ _ _ H1 H2. apply lexCompare_eq in H1. now rewrite H1.
  - intros a b c _ _ _. apply lexCompare_trans_lt.
  - intros a b c _ _ _ H1 H2.
    rewrite (lexCompare_antisym (collationKey c) (collationKey a)).
    rewrite (lexCompare_antisym (collationKey b) (collationKey a)) in H1.
    rewrite (lexCompare_antisym (collationKey c) (collationKey b)) in H2.
    pose proof (lexCompare_trans_lt (collationKey c) (collationKey b) (collationKey a)).
    lia.
Qed.

(** C4: on a collection of typed products the displayed sequence is a
    stable sort, and the only one, by the composite key, category rank
    (fruits 1, vegetables 2, salads 3) first and the name under the
    German collation second;
    three products of one category named Öl, Apfel, Zucchini come out as
    Apfel, Öl, Zucchini under any collation that files these names the
    German way. *)
Theorem sortedProducts_stable_sort (localeCompare_de : jsstring -> jsstring -> Z) :
  JsArray.Consistent (fun _ => True) localeCompare_de ->
  (categoryOrder fruits = Some 1 /\ categoryOrder vegetables = Some 2
   /\ categoryOrder salads = Some 3)
  /\ (forall products, Forall typed products ->
        JsArray.StableSort (compareKeys localeCompare_de) products
                           (sortedProducts localeCompare_de products)
        /\ forall l', JsArray.StableSort (compareKeys localeCompare_de) products l' ->
                      l' = sortedProducts localeCompare_de products)
  /\ (forall c oel apfel zucchini,
        Product.category oel = c -> Product.category apfel = c ->
        Product.category zucchini = c ->
        Product.name oel = js"Öl" -> Product.name apfel = js"Apfel" ->
        Product.name zucchini = js"Zucchini" ->
        localeCompare_de (js"Apfel") (js"Öl") < 0 ->
        localeCompare_de (js"Öl") (js"Zucchini") < 0 ->
        sortedProducts localeCompare_de [oel; apfel; zucchini]
        = [apfel; oel; zucchini]).
Proof.
  intros collation. split; [repeat split|]. split.
  - intros products HT. split; [now apply sortedProducts_StableSort|].
    intros l'. now apply sortedProducts_unique.
  - intros c. now apply sortedProducts_three.
Qed.

Lemma sortedProducts_stable_sort_witness :
  sortedProducts germanPrimary
    [vegetable (js"Öl") 1; vegetable (js"Apfel") 2; vegetable (js"Zucchini") 3]
  = [vegetable (js"Apfel") 2; vegetable (js"Öl") 1; vegetable (js"Zucchini") 3]
  /\ JsArray.StableSort (compareKeys germanPrimary)
       [karotte; apfel]
       (sortedProducts germanPrimary [karotte; apfel]).
Proof.
  destruct (sortedProducts_stable_sort germanPrimary germanPrimary_consistent)
    as (_ & Hsort & Hthree).
  split.
  - apply (Hthree vegetables); reflexivity.
  - apply Hsort.
    constructor; [right; left; reflexivity|].
    constructor; [left; reflexivity|].
    constructor.
Defined.

(** ** Handlers *)

Lemma persisted_one s r x :
  Page.saved r.2 = Page.saved s ++ [x] -> persisted s r = [x].
Proof.
  unfold persisted. intros ->. now rewrite drop_app_length.
Qed.

Lemma persisted_none s r :
  Page.saved r.2 = Page.saved s -> persisted s r = [].
Proof.
  unfold persisted. intros ->. apply drop_all.
Qed.

(** *** Delete *)

Lemma handleDeleteProduct_confirmed resolves productId s :
  persisted s (handleDeleteProduct resolves true productId s)
  = [filter (fun p => Product.id p <> productId) (Page.products s)].
Proof. apply persisted_one. reflexivity. Qed.

Lemma filter_other_ids productId (l : list Product.t) :
  productId ∉ (Product.id <$> l) ->
  filter (fun p => Product.id p <> productId) l = l.
Proof.
  induction l as [|q l IH]; intros Hin; [reflexivity|].
  cbn [fmap list_fmap] in Hin. apply not_elem_of_cons in Hin as [Hq Hl].
  rewrite filter_cons_True by congruence. f_equal. now apply IH.
Qed.

Lemma filter_unique_id productId (l : list Product.t) :
  NoDup (Product.id <$> l) -> productId ∈ (Product.id <$> l) ->
  removesExactlyOne productId l (filter (fun p => Product.id p <> productId) l).
Proof.
  induction l as [|q l IH]; intros Hnd Hin; [now apply elem_of_nil in Hin|].
  cbn [fmap list_fmap] in Hnd, Hin. apply NoDup_cons in Hnd as [Hq Hnd].
  destruct (decide (Product.id q = productId)) as [E|N].
  - exists [], q, l. repeat split; [assumption|].
    rewrite filter_cons_False by tauto. cbn [app].
    apply filter_other_ids. now rewrite <- E.
  - apply elem_of_cons in Hin as [Hin|Hin]; [congruence|].
    destruct (IH Hnd Hin) as (l1 & p & l2 & -> & Hp & E).
    exists (q :: l1), p, l2. repeat split; [assumption|].
    rewrite filter_cons_True by assumption. now rewrite E.
Qed.

(** C2, as the code has it: a confirmed delete persists the collection
    without the records whose id is the given one, the others unchanged
    and in their order; when the ids of the collection are pairwise
    distinct and the id occurs, that is exactly one record removed.  A
    declined confirmation persists nothing. *)
Theorem delete_removes_matching_records resolves productId s :
  persisted s (handleDeleteProduct resolves true productId s)
  = [filter (fun p => Product.id p <> productId) (Page.products s)]
  /\ (NoDup (Product.id <$> Page.products s) ->
      productId ∈ (Product.id <$> Page.products s) ->
      removesExactlyOne productId (Page.products s)
        (filter (fun p => Product.id p <> productId) (Page.products s)))
  /\ persisted s (handleDeleteProduct resolves false productId s) = [].
Proof.
  split; [apply handleDeleteProduct_confirmed|]. split.
  - apply filter_unique_id.
  - apply persisted_none. reflexivity.
Qed.

Lemma delete_removes_matching_records_witness :
  removesExactlyOne (js"apfel") [apfel; karotte]
    (filter (fun p => Product.id p <> js"apfel") [apfel; karotte]).
Proof.
  apply (delete_removes_matching_records (fun _ => true) (js"apfel")
           (pageOf [apfel; karotte] None emptyDraft)).
  - cbn. apply NoDup_cons. split.
    + intros H. apply list_elem_of_singleton in H. discriminate H.
    + apply NoDup_singleton.
  - left.
Defined.

(** Against C2 as worded: adding "APFEL" to a collection that holds
    "Apfel" persists two records with the id "apfel"; deleting by that id
    then removes both, not exactly one. *)
Lemma delete_removes_both_duplicates :
  persisted (pageOf [apfel] None apfelAgainDraft)
            (handleAddProduct (fun _ => true) (pageOf [apfel] None apfelAgainDraft))
  = [[apfel; apfelAgain]]
  /\ js"apfel" ∈ (Product.id <$> [apfel; apfelAgain])
  /\ persisted (pageOf [apfel; apfelAgain] None emptyDraft)
       (handleDeleteProduct (fun _ => true) true (js"apfel")
          (pageOf [apfel; apfelAgain] None emptyDraft))
     = [[]]
  /\ ~ removesExactlyOne (js"apfel") [apfel; apfelAgain] [].
Proof.
  split; [reflexivity|]. split; [left|]. split; [reflexivity|].
  intros (l1 & p & l2 & E & _ & E'). symmetry in E'.
  apply app_eq_nil in E' as [-> ->]. discriminate E.
Qed.

(** *** Unit change *)

Lemma handleUnitChange_new newUnit s :
  Page.newProduct (handleUnitChange newUnit true s).2
  = unitChangeDraft newUnit (Page.newProduct s).
Proof. reflexivity. Qed.

Lemma handleUnitChange_edit newUnit s :
  Page.editingProduct (handleUnitChange newUnit false s).2
  = unitChangeProduct newUnit (Page.editingProduct s).
Proof.
  destruct s as [products [editing|] draft saved scroll]; reflexivity.
Qed.

(** C5: changing the unit to "kg" leaves the draft, the new-product one
    or the one being edited, with kgFactor 1 whatever it held; changing
    it to any other unit leaves the kgFactor it held. *)
Theorem unit_change_couples_kgFactor newUnit s :
  (newUnit = kg ->
     Draft.kgFactor (Page.newProduct (handleUnitChange newUnit true s).2)
     = Some 1%float
     /\ forall prev, Page.editingProduct s = Some prev ->
          Product.kgFactor <$> Page.editingProduct (handleUnitChange newUnit false s).2
          = Some 1%float)
  /\ (newUnit <> kg ->
     Draft.kgFactor (Page.newProduct (handleUnitChange newUnit true s).2)
     = Draft.kgFactor (Page.newProduct s)
     /\ forall prev, Page.editingProduct s = Some prev ->
          Product.kgFactor <$> Page.editingProduct (handleUnitChange newUnit false s).2
          = Some (Product.kgFactor prev))
  /\ Draft.unit (Page.newProduct (handleUnitChange newUnit true s).2) = Some newUnit
  /\ (forall prev, Page.editingProduct s = Some prev ->
        Product.unit <$> Page.editingProduct (handleUnitChange newUnit false s).2
        = Some newUnit).
Proof.
  rewrite handleUnitChange_new, handleUnitChange_edit.
  unfold unitChangeDraft, unitChangeProduct, nullish.
  split; [|split; [|split]].
  - intros ->. split; [reflexivity|]. intros prev ->. reflexivity.
  - intros N. split.
    + cbn. case_decide; [contradiction|reflexivity].
    + intros prev ->. cbn. case_decide; [contradiction|reflexivity].
  - reflexivity.
  - intros prev ->. reflexivity.
Qed.

Lemma unit_change_couples_kgFactor_witness :
  Product.kgFactor <$> Page.editingProduct
     (handleUnitChange kg false (pageOf [karotte] (Some karotte) karotteDraft)).2
  = Some 1%float
  /\ Draft.kgFactor (Page.newProduct
     (handleUnitChange (js"Bund") true (pageOf [karotte] (Some karotte) karotteDraft)).2)
  = Some 5%float.
Proof.
  split.
  - apply (unit_change_couples_kgFactor kg
             (pageOf [karotte] (Some karotte) karotteDraft));
      reflexivity.
  - apply (unit_change_couples_kgFactor (js"Bund")
             (pageOf [karotte] (Some karotte) karotteDraft)).
    discriminate.
Defined.

(** *** Add *)

Lemma truthyField_Some v : truthyField v = true <-> exists s, v = Some s /\ s <> [].
Proof.
  destruct v as [[|c s]|]; cbn; split; try discriminate.
  - intros (s & [= <-] & N). contradiction.
  - intros _. eexists. split; [reflexivity|discriminate].
  - reflexivity.
  - intros (s & E & _). discriminate.
Qed.

Lemma submittable_spec d :
  submittable d = true <->
  truthyField (Draft.name d) = true /\ truthyField (Draft.category d) = true
  /\ truthyField (Draft.unit d) = true /\ Draft.kgFactor d <> None.
Proof.
  unfold submittable. rewrite !andb_true_iff, bool_decide_eq_true. tauto.
Qed.

Lemma handleAddProduct_rejected resolves s :
  submittable (Page.newProduct s) = false ->
  handleAddProduct resolves s = (Returned (), s).
Proof.
  intros H. unfold handleAddProduct, mbind, handler_bind, getPage.
  now rewrite H.
Qed.

Lemma handleAddProduct_submitted resolves s name category unit kgFactor :
  Draft.name (Page.newProduct s) = Some name -> name <> [] ->
  Draft.category (Page.newProduct s) = Some category -> category <> [] ->
  Draft.unit (Page.newProduct s) = Some unit -> unit <> [] ->
  Draft.kgFactor (Page.newProduct s) = Some kgFactor ->
  persisted s (handleAddProduct resolves s)
  = [Page.products s ++
       [Product.mk (derive_id name) name category unit kgFactor
                   (Z.of_nat (length (Page.products s)) + 1)]].
Proof.
  intros Hn Nn Hc Nc Hu Nu Hk.
  assert (G : submittable (Page.newProduct s) = true).
  { apply submittable_spec. rewrite !truthyField_Some, Hn, Hc, Hu, Hk.
    repeat split; eauto; discriminate. }
  apply persisted_one. unfold handleAddProduct, mbind, handler_bind, getPage.
  rewrite G, Hn, Hc, Hu, Hk. cbn.
  destruct (resolves _); reflexivity.
Qed.

(** C6: a new-product draft with a name, a category and a unit (each a
    non-empty string) and kgFactor 0 passes the check of the add handler
    and one collection is handed to saveProducts; with the name, the
    category or the unit missing (undefined or empty) or kgFactor
    undefined the handler submits nothing and changes nothing. *)
Theorem add_presence_check resolves s :
  (forall name category unit,
     Draft.name (Page.newProduct s) = Some name -> name <> [] ->
     Draft.category (Page.newProduct s) = Some category -> category <> [] ->
     Draft.unit (Page.newProduct s) = Some unit -> unit <> [] ->
     Draft.kgFactor (Page.newProduct s) = Some 0%float ->
     submittable (Page.newProduct s) = true
     /\ persisted s (handleAddProduct resolves s)
        = [Page.products s ++
             [Product.mk (derive_id name) name category unit 0%float
                         (Z.of_nat (length (Page.products s)) + 1)]])
  /\ (truthyField (Draft.name (Page.newProduct s)) = false
      \/ truthyField (Draft.category (Page.newProduct s)) = false
      \/ truthyField (Draft.unit (Page.newProduct s)) = false
      \/ Draft.kgFactor (Page.newProduct s) = None ->
      persisted s (handleAddProduct resolves s) = []
      /\ handleAddProduct resolves s = (Returned (), s)).
Proof.
  split.
  - intros name category unit Hn Nn Hc Nc Hu Nu Hk. split.
    + apply submittable_spec. rewrite !truthyField_Some, Hn, Hc, Hu, Hk.
      repeat split; eauto; discriminate.
    + apply (handleAddProduct_submitted resolves s name category unit);
        assumption.
  - intros H.
    assert (G : submittable (Page.newProduct s) = false).
    { destruct (submittable (Page.newProduct s)) eqn:E; [|reflexivity].
      apply submittable_spec in E as (E1 & E2 & E3 & E4).
      destruct H as [H|[H|[H|H]]]; congruence. }
    rewrite (handleAddProduct_rejected _ _ G). split; [|reflexivity].
    now apply persisted_none.
Qed.

Lemma add_presence_check_witness :
  persisted (pageOf [apfel] None
               (Draft.mk None (Some (js"Karotte")) (Some vegetables)
                         (Some (js"Bund")) (Some 0%float) None))
    (handleAddProduct (fun _ => true)
       (pageOf [apfel] None
               (Draft.mk None (Some (js"Karotte")) (Some vegetables)
                         (Some (js"Bund")) (Some 0%float) None)))
  = [[apfel;
      Product.mk (js"karotte") (js"Karotte") vegetables (js"Bund") 0%float 2]]
  /\ persisted (pageOf [apfel] None emptyDraft)
       (handleAddProduct (fun _ => true) (pageOf [apfel] None emptyDraft)) = [].
Proof.
  split.
  - apply (add_presence_check (fun _ => true)
             (pageOf [apfel] None
                (Draft.mk None (Some (js"Karotte")) (Some vegetables)
                          (Some (js"Bund")) (Some 0%float) None))
             ) with (name := js"Karotte") (category := vegetables) (unit := js"Bund");
      solve [reflexivity | discriminate].
  - apply (add_presence_check (fun _ => true) (pageOf [apfel] None emptyDraft)).
    left. reflexivity.
Defined.

(** C7: adding a product to a collection of n records persists that
    collection with one record appended, whose id is derived from the
    entered name and whose order is n + 1, the records before it
    untouched; adding Karotte to the collection that holds Apfel gives
    id "karotte" and order 2 behind the unchanged Apfel record. *)
Theorem add_appends_one_record resolves s name category unit kgFactor :
  Draft.name (Page.newProduct s) = Some name -> name <> [] ->
  Draft.category (Page.newProduct s) = Some category -> category <> [] ->
  Draft.unit (Page.newProduct s) = Some unit -> unit <> [] ->
  Draft.kgFactor (Page.newProduct s) = Some kgFactor ->
  persisted s (handleAddProduct resolves s)
  = [Page.products s ++
       [Product.mk (derive_id name) name category unit kgFactor
                   (Z.of_nat (length (Page.products s)) + 1)]]
  /\ persisted (pageOf [apfel] None karotteDraft)
       (handleAddProduct resolves (pageOf [apfel] None karotteDraft))
     = [[apfel; karotte]]
  /\ Product.id karotte = js"karotte" /\ Product.order karotte = 2.
Proof.
  intros Hn Nn Hc Nc Hu Nu Hk. split.
  - now apply handleAddProduct_submitted.
  - split; [|split; reflexivity].
    rewrite (handleAddProduct_submitted resolves _ (js"Karotte") vegetables
               (js"Stück") 5%float); solve [reflexivity | discriminate].
Qed.

Lemma add_appends_one_record_witness :
  persisted (pageOf [apfel] None karotteDraft)
    (handleAddProduct (fun _ => true) (pageOf [apfel] None karotteDraft))
  = [[apfel] ++
       [Product.mk (derive_id (js"Karotte")) (js"Karotte") vegetables (js"Stück")
                   5%float (Z.of_nat (length [apfel]) + 1)]].
Proof.
  apply (add_appends_one_record (fun _ => true) (pageOf [apfel] None karotteDraft)
           (js"Karotte") vegetables (js"Stück") 5%float);
    solve [reflexivity | discriminate].
Defined.

(** *** Edit *)

(** The collection [handleSaveEdit] builds. *)
Local Abbreviation replaced draft products :=
  ((fun p : Product.t =>
      if decide (Product.id p = Product.id draft) then draft else p)
   <$> products).

Lemma handleSaveEdit_run resolves s draft :
  Page.editingProduct s = Some draft ->
  handleSaveEdit resolves s =
  (if resolves (replaced draft (Page.products s)) then Returned () else Rejected,
   Page.mk (Page.products s)
           (if resolves (replaced draft (Page.products s)) then None else Some draft)
           (Page.newProduct s)
           (Page.saved s ++ [replaced draft (Page.products s)])
           (S (Page.scrollSaves s))).
Proof.
  intros E. unfold handleSaveEdit, mbind, handler_bind, getPage.
  rewrite E. cbn. destruct (resolves _); cbn; rewrite ?E; reflexivity.
Qed.

Lemma handleSaveEdit_idle resolves s :
  Page.editingProduct s = None -> handleSaveEdit resolves s = (Returned (), s).
Proof.
  intros E. unfold handleSaveEdit, mbind, handler_bind, getPage.
  now rewrite E.
Qed.

Lemma replaced_lookup draft (products : list Product.t) i :
  replaced draft products !! i =
  (fun p => if decide (Product.id p = Product.id draft) then draft else p)
  <$> products !! i.
Proof. apply list_lookup_fmap. Qed.

Lemma replaced_ids draft (products : list Product.t) :
  Product.id <$> replaced draft products = Product.id <$> products.
Proof.
  rewrite <- list_fmap_compose. apply list_fmap_ext.
  intros i p _. cbn. case_decide; congruence.
Qed.

Lemma replaced_vanished draft (products : list Product.t) :
  Product.id draft ∉ (Product.id <$> products) ->
  replaced draft products = products.
Proof.
  induction products as [|p l IH]; intros H; [reflexivity|].
  cbn [fmap list_fmap] in H |- *. apply not_elem_of_cons in H as [Hp Hl].
  case_decide; [congruence|]. f_equal. now apply IH.
Qed.

Lemma onEditChange_id f s :
  Product.id <$> Page.editingProduct (onEditChange f s).2
  = Product.id <$> Page.editingProduct s.
Proof.
  destruct s as [products [editing|] draft saved scroll], f; reflexivity.
Qed.

Lemma onEditChange_frame f s :
  Page.products (onEditChange f s).2 = Page.products s
  /\ Page.saved (onEditChange f s).2 = Page.saved s.
Proof.
  destruct s as [products [editing|] draft saved scroll], f; split; reflexivity.
Qed.

(** However the inputs of the edit form are changed, the draft keeps its
    id, the collection is not touched and nothing is persisted. *)
Lemma editSession_id changes : forall s,
  Product.id <$> Page.editingProduct (editSession changes s)
  = Product.id <$> Page.editingProduct s
  /\ Page.products (editSession changes s) = Page.products s
  /\ Page.saved (editSession changes s) = Page.saved s.
Proof.
  induction changes as [|f changes IH]; intros s; [repeat split|].
  cbn [editSession foldl]. destruct (IH (onEditChange f s).2) as (E1 & E2 & E3).
  unfold editSession in E1, E2, E3. rewrite E1, E2, E3, onEditChange_id.
  destruct (onEditChange_frame f s) as [-> ->]. repeat split.
Qed.

(** C9: saving an edit hands saveProducts the collection in which every
    record with the draft's id is the draft and every record with another
    id is as it was, position by position, so the ids of the collection
    stay as they were; the draft is the selected record when editing
    starts and no change to the inputs of the edit form alters its id.
    Cancelling drops the draft and persists nothing. *)
Theorem save_edit_replaces_matching resolves s draft :
  Page.editingProduct s = Some draft ->
  (exists updated,
     persisted s (handleSaveEdit resolves s) = [updated]
     /\ length updated = length (Page.products s)
     /\ (forall i p, Page.products s !! i = Some p ->
           (Product.id p = Product.id draft -> updated !! i = Some draft)
           /\ (Product.id p <> Product.id draft -> updated !! i = Some p))
     /\ Product.id <$> updated = Product.id <$> Page.products s)
  /\ (forall product changes,
        Product.id <$> Page.editingProduct
                         (editSession changes (handleEditProduct product s).2)
        = Some (Product.id product))
  /\ persisted s (handleCancelEdit s) = []
  /\ Page.editingProduct (handleCancelEdit s).2 = None.
Proof.
  intros E. split; [|split; [|split]].
  - exists (replaced draft (Page.products s)). split; [|split; [|split]].
    + apply persisted_one. now rewrite (handleSaveEdit_run _ _ draft).
    + apply length_fmap.
    + intros i p Hp. rewrite replaced_lookup, Hp. cbn.
      split; intros; case_decide; tauto.
    + apply replaced_ids.
  - intros product changes.
    now destruct (editSession_id changes (handleEditProduct product s).2) as [-> _].
  - apply persisted_none. reflexivity.
  - reflexivity.
Qed.

Lemma save_edit_replaces_matching_witness :
  exists updated,
    persisted (pageOf [apfel; karotte] (Some (vegetable (js"Karotte") 2)) emptyDraft)
      (handleSaveEdit (fun _ => true)
         (pageOf [apfel; karotte] (Some (vegetable (js"Karotte") 2)) emptyDraft))
    = [updated]
    /\ updated !! 0%nat = Some apfel
    /\ updated !! 1%nat = Some (vegetable (js"Karotte") 2).
Proof.
  destruct (save_edit_replaces_matching (fun _ => true)
              (pageOf [apfel; karotte] (Some (vegetable (js"Karotte") 2)) emptyDraft)
              (vegetable (js"Karotte") 2) eq_refl)
    as ((updated & Hp & _ & Hl & _) & _).
  exists updated. split; [exact Hp|]. split.
  - apply (Hl 0%nat apfel); [reflexivity|discriminate].
  - apply (Hl 1%nat karotte); reflexivity.
Defined.

(** C10: when no record of the collection has the draft's id, saving the
    edit hands saveProducts a collection equal to the original, record
    for record, and once that save has resolved the draft is cleared. *)
Theorem save_edit_of_vanished_product resolves s draft :
  Page.editingProduct s = Some draft ->
  Product.id draft ∉ (Product.id <$> Page.products s) ->
  persisted s (handleSaveEdit resolves s) = [Page.products s]
  /\ (resolves (Page.products s) = true ->
      Page.editingProduct (handleSaveEdit resolves s).2 = None).
Proof.
  intros E H. rewrite (handleSaveEdit_run _ _ draft E).
  rewrite (replaced_vanished _ _ H). split.
  - now apply persisted_one.
  - intros ->. reflexivity.
Qed.

Lemma save_edit_of_vanished_product_witness :
  persisted (pageOf [apfel] (Some karotte) emptyDraft)
    (handleSaveEdit (fun _ => true) (pageOf [apfel] (Some karotte) emptyDraft))
  = [[apfel]]
  /\ Page.editingProduct
       (handleSaveEdit (fun _ => true) (pageOf [apfel] (Some karotte) emptyDraft)).2
     = None.
Proof.
  destruct (save_edit_of_vanished_product (fun _ => true)
              (pageOf [apfel] (Some karotte) emptyDraft) karotte eq_refl)
    as [Hp Hc].
  - cbn. intros H. apply list_elem_of_singleton in H. discriminate H.
  - split; [exact Hp|]. apply Hc. reflexivity.
Defined.

(** ** The grouped view *)

Local Abbreviation groupOf k l :=
  (filter (fun p : Product.t => Product.category p = k) l).

Local Abbreviation plain p := (inherited (Product.category p) = false).

Lemma groupedProducts_snoc (l : list Product.t) p :
  groupedProducts (l ++ [p]) = groupedProducts l ≫= fun acc => groupStep acc p.
Proof. unfold groupedProducts. now rewrite foldl_app. Qed.

(** With no category named like a member of Object.prototype the reducer
    ends with one own property per category that occurs, holding the
    products of that category in the order of the input. *)
Lemma groupedProducts_plain (l : list Product.t) :
  Forall (fun p => plain p) l ->
  exists grouped,
    groupedProducts l = Some grouped
    /\ forall k, grouped !! k =
         if decide (groupOf k l = []) then None else Some (groupOf k l).
Proof.
  induction l as [|p l IH] using rev_ind; intros HP.
  - exists ∅. split; [reflexivity|]. intros k. now rewrite lookup_empty.
  - apply Forall_app in HP as [Hl Hp]. rewrite Forall_singleton in Hp.
    destruct (IH Hl) as (g & Eg & Hg).
    rewrite groupedProducts_snoc, Eg. cbn [mbind option_bind].
    unfold groupStep. rewrite (Hg (Product.category p)).
    assert (Hk : forall k, groupOf k (l ++ [p]) =
               groupOf k l ++ if decide (Product.category p = k) then [p] else []).
    { intros k. rewrite filter_app. reflexivity. }
    case_decide as E0.
    + rewrite Hp. eexists. split; [reflexivity|]. intros k. rewrite Hk.
      destruct (decide (Product.category p = k)) as [<-|N].
      * rewrite lookup_insert_eq, E0. reflexivity.
      * rewrite lookup_insert_ne, Hg, app_nil_r by assumption. reflexivity.
    + eexists. split; [reflexivity|]. intros k. rewrite Hk.
      destruct (decide (Product.category p = k)) as [<-|N].
      * rewrite lookup_insert_eq. case_decide as E1; [|reflexivity].
        now apply app_eq_nil in E1 as [_ ?].
      * rewrite lookup_insert_ne, Hg, app_nil_r by assumption. reflexivity.
Qed.

(** A category named like a member of Object.prototype makes the reducer
    throw. *)
Lemma groupStep_inherited acc p :
  (forall k, inherited k = true -> acc !! k = None) ->
  match groupStep acc p with
  | Some acc' =>
    inherited (Product.category p) = false
    /\ forall k, inherited k = true -> acc' !! k = None
  | None => inherited (Product.category p) = true
  end.
Proof.
  intros Hacc. unfold groupStep.
  destruct (acc !! Product.category p) as [group|] eqn:E.
  - destruct (inherited (Product.category p)) eqn:Ei.
    + rewrite (Hacc _ Ei) in E. discriminate.
    + split; [reflexivity|]. intros k Hk.
      rewrite lookup_insert_ne; [auto|congruence].
  - destruct (inherited (Product.category p)) eqn:Ei; [reflexivity|].
    split; [reflexivity|]. intros k Hk.
    rewrite lookup_insert_ne; [auto|congruence].
Qed.

Lemma groupedProducts_cases (l : list Product.t) :
  match groupedProducts l with
  | Some grouped =>
    Forall (fun p => plain p) l
    /\ forall k, inherited k = true -> grouped !! k = None
  | None => Exists (fun p => inherited (Product.category p) = true) l
  end.
Proof.
  induction l as [|p l IH] using rev_ind.
  - cbn. split; [constructor|]. intros k _. apply lookup_empty.
  - rewrite groupedProducts_snoc.
    destruct (groupedProducts l) as [g|]; cbn [mbind option_bind].
    + destruct IH as [Hl Hg].
      pose proof (groupStep_inherited g p Hg) as Hs.
      destruct (groupStep g p) as [g'|].
      * destruct Hs as [Hp Hg']. split; [|assumption].
        apply Forall_app. split; [assumption|]. now apply Forall_singleton.
      * apply Exists_app. right. now apply Exists_cons_hd.
    + apply Exists_app. now left.
Qed.

Lemma groupedProducts_throws (l : list Product.t) :
  groupedProducts l = None <->
  Exists (fun p => inherited (Product.category p) = true) l.
Proof.
  pose proof (groupedProducts_cases l) as H.
  destruct (groupedProducts l) as [g|]; split; try tauto; try discriminate.
  intros Hex. destruct H as [Hl _]. exfalso.
  apply Exists_exists in Hex as (p & Hp & Hi).
  rewrite Forall_forall in Hl. specialize (Hl p Hp). congruence.
Qed.

Lemma sortedProducts_perm lc products : sortedProducts lc products ≡ₚ products.
Proof. apply sort_perm. Qed.

Lemma render_loaded lc products :
  render lc false None products =
  groupedProducts (sortedProducts lc products) ≫= fun grouped =>
    Some (CatalogView (renderGroups grouped)).
Proof. reflexivity. Qed.

Lemma render_throws lc products :
  render lc false None products = None <->
  Exists (fun p => inherited (Product.category p) = true) products.
Proof.
  rewrite render_loaded.
  assert (E : Exists (fun p => inherited (Product.category p) = true) products <->
              Exists (fun p => inherited (Product.category p) = true)
                     (sortedProducts lc products)).
  { rewrite !Exists_exists.
    split; intros (p & Hp & Hi); exists p; (split; [|assumption]).
    - now rewrite sortedProducts_perm.
    - now rewrite sortedProducts_perm in Hp. }
  rewrite E, <- groupedProducts_throws.
  destruct (groupedProducts (sortedProducts lc products)); cbn; split;
    congruence.
Qed.

Lemma renderGroups_keys grouped :
  key <$> renderGroups grouped = [fruits; vegetables; salads].
Proof. reflexivity. Qed.

(** The cards of a rendered group are the products the reducer filed
    under the group's key. *)
Lemma renderGroups_cards grouped g :
  g ∈ renderGroups grouped ->
  cards g = default [] (grouped !! key g)
  /\ knownCategory (key g).
Proof.
  unfold renderGroups, categoryNames. cbn [fmap list_fmap].
  rewrite !elem_of_cons, elem_of_nil. unfold knownCategory.
  intros [->|[->|[->|[]]]]; cbn [cards key]; auto.
Qed.

Lemma groupOf_nil_iff k (l : list Product.t) :
  groupOf k l = [] <-> forall p, p ∈ l -> Product.category p <> k.
Proof.
  split.
  - intros E p Hp Hk.
    assert (p ∈ groupOf k l) as Hin by (apply list_elem_of_filter; auto).
    rewrite E in Hin. now apply elem_of_nil in Hin.
  - intros H. induction l as [|q l IH]; [reflexivity|].
    rewrite filter_cons_False by (apply H; left).
    apply IH. intros p Hp. apply H. now right.
Qed.

(** What is rendered from a collection without inherited category names. *)
Lemma render_plain lc products :
  Forall (fun p => plain p) products ->
  exists grouped,
    groupedProducts (sortedProducts lc products) = Some grouped
    /\ render lc false None products = Some (CatalogView (renderGroups grouped))
    /\ (forall k, is_Some (grouped !! k) <->
          exists p, p ∈ products /\ Product.category p = k)
    /\ (forall k, default [] (grouped !! k)
                  = groupOf k (sortedProducts lc products)).
Proof.
  intros HP.
  assert (HS : Forall (fun p => plain p) (sortedProducts lc products))
    by now rewrite sortedProducts_perm.
  destruct (groupedProducts_plain _ HS) as (g & Eg & Hg).
  exists g. split; [assumption|]. split; [now rewrite render_loaded, Eg|]. split.
  - intros k. rewrite Hg. case_decide as E.
    + split; [intros [? [=]]|]. intros (p & Hp & Hk). exfalso.
      rewrite groupOf_nil_iff in E. apply (E p); [|assumption].
      now rewrite sortedProducts_perm.
    + split; [|eauto]. intros _.
      destruct (groupOf k (sortedProducts lc products)) as [|p t] eqn:F;
        [contradiction|].
      assert (p ∈ groupOf k (sortedProducts lc products)) as Hin
        by (rewrite F; left).
      apply list_elem_of_filter in Hin as [Hk Hin].
      exists p. split; [|assumption]. now rewrite <- (sortedProducts_perm lc).
  - intros k. rewrite Hg. case_decide as E; [now rewrite E|reflexivity].
Qed.

(** C1, as the code has it: for a collection none of whose categories is
    named like a member of Object.prototype (every typed collection is
    one), the rendered view has exactly the three groups fruits,
    vegetables, salads in this order, each present even when it has no
    card, the cards of a group being the products of its category in
    sorted order; the grouping object itself has a key for a category
    exactly when some product has that category. *)
Theorem catalog_view_three_groups lc products :
  Forall (fun p => inherited (Product.category p) = false) products ->
  exists grouped groups,
    groupedProducts (sortedProducts lc products) = Some grouped
    /\ (forall k, is_Some (grouped !! k) <->
          exists p, p ∈ products /\ Product.category p = k)
    /\ render lc false None products = Some (CatalogView groups)
    /\ key <$> groups = [fruits; vegetables; salads]
    /\ (forall g, g ∈ groups ->
          cards g = filter (fun p => Product.category p = key g)
                           (sortedProducts lc products)).
Proof.
  intros HP. destruct (render_plain lc products HP) as (g & Eg & Er & Hk & Hc).
  exists g, (renderGroups g). repeat split; try assumption; try apply Hk.
  intros gr Hgr. apply renderGroups_cards in Hgr as [-> _]. apply Hc.
Qed.

Lemma catalog_view_three_groups_witness :
  exists grouped groups,
    groupedProducts (sortedProducts germanPrimary [karotte; apfel]) = Some grouped
    /\ render germanPrimary false None [karotte; apfel] = Some (CatalogView groups)
    /\ key <$> groups = [fruits; vegetables; salads].
Proof.
  destruct (catalog_view_three_groups germanPrimary [karotte; apfel])
    as (grouped & groups & Eg & _ & Er & Ek & _).
  - constructor; [reflexivity|]. constructor; [reflexivity|]. constructor.
  - exists grouped, groups. auto.
Defined.

(** Against C1 as worded: the grouping object of a collection that holds
    only a fruit has no key for vegetables and none for salads. *)
Lemma grouped_view_lacks_empty_categories :
  exists grouped,
    groupedProducts (sortedProducts germanPrimary [apfel]) = Some grouped
    /\ grouped !! vegetables = None
    /\ grouped !! salads = None.
Proof.
  destruct (render_plain germanPrimary [apfel]) as (g & Eg & _ & Hk & _).
  { constructor; [reflexivity|constructor]. }
  exists g. split; [assumption|].
  split; apply eq_None_not_Some; rewrite Hk; intros (p & Hp & Hc);
    apply list_elem_of_singleton in Hp; subst p; discriminate Hc.
Qed.

(** C8, as the code has it: a product whose category is not one of the
    three is in none of the groups of any view the page renders, and the
    page renders a view whenever no category of the collection is named
    like a member of Object.prototype; with such a name in the collection
    the reducer throws and there is no view. *)
Theorem unknown_category_not_rendered lc products p :
  ~ knownCategory (Product.category p) ->
  (forall groups,
     render lc false None products = Some (CatalogView groups) ->
     key <$> groups = [fruits; vegetables; salads]
     /\ forall g, g ∈ groups -> p ∉ cards g)
  /\ (Forall (fun q => inherited (Product.category q) = false) products ->
      exists groups, render lc false None products = Some (CatalogView groups))
  /\ (Exists (fun q => inherited (Product.category q) = true) products ->
      render lc false None products = None).
Proof.
  intros Hu. split; [|split].
  - intros groups Er.
    assert (HP : Forall (fun q => plain q) products).
    { apply Forall_forall. intros q Hq.
      destruct (inherited (Product.category q)) eqn:E; [exfalso|reflexivity].
      assert (render lc false None products = None) as N; [|congruence].
      apply render_throws, Exists_exists. eauto. }
    destruct (render_plain lc products HP) as (g & _ & Er' & _ & Hc).
    rewrite Er' in Er. injection Er as <-. split; [reflexivity|].
    intros gr Hgr Hin. apply renderGroups_cards in Hgr as [E Hknown].
    rewrite E, Hc in Hin. apply list_elem_of_filter in Hin as [Hcat _].
    apply Hu. now rewrite Hcat.
  - intros HP. destruct (render_plain lc products HP) as (g & _ & Er & _).
    eauto.
  - apply render_throws.
Qed.

Lemma unknown_category_not_rendered_witness :
  exists groups,
    render germanPrimary false None [apfel; stray (js"exotic")]
    = Some (CatalogView groups)
    /\ forall g, g ∈ groups -> stray (js"exotic") ∉ cards g.
Proof.
  destruct (unknown_category_not_rendered germanPrimary
              [apfel; stray (js"exotic")] (stray (js"exotic")))
    as (Habsent & Hview & _).
  - intros [H|[H|H]]; discriminate H.
  - destruct Hview as [groups Er].
    + constructor; [reflexivity|]. constructor; [reflexivity|]. constructor.
    + exists groups. split; [assumption|]. now apply Habsent.
Defined.

(** Against C8 as worded: a record whose category is "constructor" is not
    silently left out, the reducer throws and the page renders no view at
    all. *)
Lemma constructor_category_breaks_render :
  ~ knownCategory (Product.category (stray (js"constructor")))
  /\ render germanPrimary false None [apfel; stray (js"constructor")] = None.
Proof.
  split.
  - intros [H|[H|H]]; discriminate H.
  - apply render_throws. apply Exists_cons_tl, Exists_cons_hd. reflexivity.
Qed.

(** * Further properties of the page *)

(** ** The identifier deriver, unit by unit *)

Local Open Scope N_scope.

Ltac units :=
  unfold JsString.lowerUnit, transliterate, isAlnum, isUmlaut, notAlnum,
    JsString.a_uml, JsString.o_uml, JsString.u_uml, JsString.eszett,
    JsString.hyphen in *;
  try reflexivity;
  repeat (match goal with
          | H : context [N.leb ?a ?b] |- _ => destruct (N.leb_spec a b)
          | H : context [N.eqb ?a ?b] |- _ => destruct (N.eqb_spec a b)
          | |- context [N.leb ?a ?b] => destruct (N.leb_spec a b)
          | |- context [N.eqb ?a ?b] => destruct (N.eqb_spec a b)
          end;
          cbn [andb orb negb] in *; try discriminate; try lia;
          try reflexivity).

Lemma derive_id_app a b : derive_id (a ++ b) = derive_id a ++ derive_id b.
Proof.
  unfold derive_id, JsString.replaceClass, JsString.toLowerCase.
  now rewrite !flat_map_app.
Qed.

Lemma derive_id_cons c name :
  derive_id (c :: name)
  = flat_map transliterate (JsString.lowerUnit c) ++ derive_id name.
Proof.
  change (c :: name) with ([c] ++ name). rewrite derive_id_app. f_equal.
  rewrite derive_id_refines. unfold derive_id_spec, JsString.toLowerCase.
  cbn [flat_map]. now rewrite app_nil_r.
Qed.

Lemma transliterate_length c :
  (1 <= length (transliterate c) <= 2)%nat.
Proof.
  unfold transliterate.
  repeat match goal with
  | |- context [if ?b then _ else _] => destruct b
  end; vm_compute; lia.
Qed.

Lemma derive_unit_length c :
  (1 <= length (flat_map transliterate (JsString.lowerUnit c)) <= 2)%nat.
Proof.
  assert (one : forall x, (1 <= length (flat_map transliterate [x]) <= 2)%nat).
  { intros x. cbn [flat_map]. rewrite app_nil_r. apply transliterate_length. }
  unfold JsString.lowerUnit.
  repeat match goal with
  | |- context [if ?b then _ else _] => destruct b; [try apply one|]
  end; [vm_compute; lia|apply one].
Qed.

(** What lower-casing yields is lower case already. *)
Lemma lowerUnit_fixed c x :
  x ∈ JsString.lowerUnit c -> JsString.lowerUnit x = [x].
Proof.
  unfold JsString.lowerUnit at 1. intros H.
  repeat match type of H with
  | context [if ?b then _ else _] => destruct b eqn:?
  end;
  repeat (apply elem_of_cons in H as [->|H]); try (now apply elem_of_nil in H);
  units.
Qed.

Lemma flat_map_fixed {A : Type} (f : A -> list A) l :
  (forall x, x ∈ l -> f x = [x]) -> flat_map f l = l.
Proof.
  induction l as [|x l IH]; intros H; [reflexivity|].
  cbn [flat_map]. rewrite H by left. cbn. f_equal. apply IH.
  intros y Hy. apply H. now right.
Qed.

Lemma toLowerCase_idempotent name :
  JsString.toLowerCase (JsString.toLowerCase name) = JsString.toLowerCase name.
Proof.
  unfold JsString.toLowerCase. apply flat_map_fixed.
  intros x Hx. apply list_elem_of_In, in_flat_map in Hx as (c & _ & Hx).
  apply (lowerUnit_fixed c). now apply list_elem_of_In.
Qed.

(** An identifier is its own identifier. *)
Lemma derive_id_fixed s :
  Forall (fun u => isAlnum u = true \/ u = JsString.hyphen) s -> derive_id s = s.
Proof.
  induction 1 as [|c s Hc _ IH]; [reflexivity|].
  rewrite derive_id_cons, IH.
  assert (E : flat_map transliterate (JsString.lowerUnit c) = [c]);
    [|now rewrite E].
  destruct Hc as [Hc| ->]; [|reflexivity].
  assert (L : JsString.lowerUnit c = [c]) by units.
  rewrite L. cbn [flat_map]. rewrite app_nil_r. units.
Qed.

Lemma derive_id_alphabet name :
  Forall (fun u => isAlnum u = true \/ u = JsString.hyphen) (derive_id name).
Proof.
  rewrite derive_id_refines. unfold derive_id_spec.
  induction (JsString.toLowerCase name) as [|c l IH]; [constructor|].
  cbn [flat_map]. apply Forall_app. split; [apply transliterate_alphabet|exact IH].
Qed.

Lemma derive_id_length name :
  (length name <= length (derive_id name) <= 2 * length name)%nat.
Proof.
  induction name as [|c name IH]; [cbn; lia|].
  rewrite derive_id_cons, length_app. cbn [length].
  pose proof (derive_unit_length c). lia.
Qed.

(** Identifiers are safe keys: nothing but lower-case letters, digits and
    hyphens, and deriving again from an identifier gives it back. *)
Theorem derive_id_key_safe name :
  Forall (fun u => isAlnum u = true \/ u = JsString.hyphen) (derive_id name)
  /\ derive_id (derive_id name) = derive_id name.
Proof.
  split; [apply derive_id_alphabet|]. apply derive_id_fixed, derive_id_alphabet.
Qed.

(** An identifier is at least as long as the name and at most twice as
    long; only the empty name has the empty identifier. *)
Theorem derive_id_length_bounds name :
  (length name <= length (derive_id name) <= 2 * length name)%nat
  /\ (derive_id name = [] <-> name = []).
Proof.
  split; [apply derive_id_length|]. split.
  - intros E. pose proof (derive_id_length name) as H. rewrite E in H.
    destruct name; [reflexivity|cbn in H; lia].
  - intros ->. reflexivity.
Qed.

(** The deriver works unit by unit and does not see case: the identifier
    of a concatenation is the concatenation of the identifiers, and a
    name and its lower-case form share one identifier. *)
Theorem derive_id_unit_by_unit a b :
  derive_id (a ++ b) = derive_id a ++ derive_id b
  /\ derive_id (JsString.toLowerCase a) = derive_id a.
Proof.
  split; [apply derive_id_app|].
  unfold derive_id. now rewrite toLowerCase_idempotent.
Qed.

(** ** Handlers, one after another *)

Local Open Scope Z_scope.

Local Abbreviation without productId products :=
  (filter (fun p : Product.t => Product.id p <> productId) products).

Section HandlerFacts.
Variable resolves : list Product.t -> bool.

Lemma handleAddProduct_run s name category unit kgFactor :
  entered (Page.newProduct s) name category unit kgFactor ->
  let updated := Page.products s ++
                 [newProductComplete (Page.products s) name category unit kgFactor] in
  handleAddProduct resolves s =
  (if resolves updated then Returned () else Rejected,
   Page.mk (Page.products s) (Page.editingProduct s)
           (if resolves updated then emptyDraft else Page.newProduct s)
           (Page.saved s ++ [updated]) (S (Page.scrollSaves s))).
Proof.
  intros (Hn & Nn & Hc & Nc & Hu & Nu & Hk) updated.
  assert (G : submittable (Page.newProduct s) = true).
  { apply submittable_spec. rewrite !truthyField_Some, Hn, Hc, Hu, Hk.
    repeat split; eauto; discriminate. }
  unfold handleAddProduct, mbind, handler_bind, getPage.
  rewrite G, Hn, Hc, Hu, Hk. subst updated. unfold newProductComplete. cbn.
  destruct (resolves _); reflexivity.
Qed.

Lemma handleAddProduct_persisted s name category unit kgFactor :
  entered (Page.newProduct s) name category unit kgFactor ->
  persisted s (handleAddProduct resolves s)
  = [Page.products s ++
       [newProductComplete (Page.products s) name category unit kgFactor]].
Proof.
  intros H. apply persisted_one. now rewrite (handleAddProduct_run _ _ _ _ _ H).
Qed.

End HandlerFacts.

Lemma ids_snoc (l : list Product.t) p :
  Product.id <$> (l ++ [p]) = (Product.id <$> l) ++ [Product.id p].
Proof. now rewrite fmap_app. Qed.

Lemma without_snoc_fresh (l : list Product.t) p :
  Product.id p ∉ (Product.id <$> l) -> without (Product.id p) (l ++ [p]) = l.
Proof.
  intros H. rewrite filter_app, filter_other_ids by assumption.
  rewrite filter_cons_False by tauto. apply app_nil_r.
Qed.

Lemma without_absent productId (l : list Product.t) :
  productId ∉ (Product.id <$> without productId l).
Proof.
  intros H. apply list_elem_of_fmap in H as (p & -> & Hp).
  apply list_elem_of_filter in Hp as [Hp _]. congruence.
Qed.

Lemma ids_injective_on (l : list Product.t) p q :
  NoDup (Product.id <$> l) -> p ∈ l -> q ∈ l -> Product.id p = Product.id q -> p = q.
Proof.
  induction l as [|x l IH]; intros Hnd Hp Hq E; [now apply elem_of_nil in Hp|].
  cbn [fmap list_fmap] in Hnd. apply NoDup_cons in Hnd as [Hx Hnd].
  apply elem_of_cons in Hp as [->|Hp]; apply elem_of_cons in Hq as [->|Hq].
  - reflexivity.
  - exfalso. apply Hx. rewrite E. now apply list_elem_of_fmap_2.
  - exfalso. apply Hx. rewrite <- E. now apply list_elem_of_fmap_2.
  - now apply IH.
Qed.

Lemma replaced_self (l : list Product.t) p :
  NoDup (Product.id <$> l) -> p ∈ l -> replaced p l = l.
Proof.
  intros Hnd Hp. rewrite <- (list_fmap_id l) at 2.
  apply list_fmap_ext. intros i q Hq. cbn.
  case_decide as E; [|reflexivity].
  symmetry. apply (ids_injective_on l); [assumption| |assumption|assumption].
  eapply list_elem_of_lookup_2. exact Hq.
Qed.

Lemma replaced_idempotent draft (l : list Product.t) :
  replaced draft (replaced draft l) = replaced draft l.
Proof.
  rewrite <- list_fmap_compose. apply list_fmap_ext. intros i q _. cbn.
  destruct (decide (Product.id q = Product.id draft)) as [E|N].
  - now rewrite decide_True by reflexivity.
  - now rewrite decide_False by assumption.
Qed.

Lemma karotteDraft_entered products editing :
  entered (Page.newProduct (pageOf products editing karotteDraft))
          (js"Karotte") vegetables (js"Stück") 5%float.
Proof. repeat split; discriminate. Qed.

(** Adding keeps the ids of the collection pairwise distinct exactly when
    they were distinct and the identifier derived from the entered name is
    not yet in use; the handler itself does not look. *)
Theorem add_keeps_ids_distinct_iff_fresh resolves s name category unit kgFactor :
  entered (Page.newProduct s) name category unit kgFactor ->
  exists updated,
    persisted s (handleAddProduct resolves s) = [updated]
    /\ (NoDup (Product.id <$> updated) <->
        NoDup (Product.id <$> Page.products s)
        /\ derive_id name ∉ (Product.id <$> Page.products s)).
Proof.
  intros H. eexists. split; [apply (handleAddProduct_persisted _ _ _ _ _ _ H)|].
  rewrite ids_snoc, NoDup_app. cbn [newProductComplete Product.id]. split.
  - intros (Hnd & Hfresh & _). split; [assumption|].
    intros Hin. apply (Hfresh _ Hin). left.
  - intros [Hnd Hfresh]. split; [assumption|]. split; [|apply NoDup_singleton].
    intros x Hx Hx'. apply list_elem_of_singleton in Hx'. congruence.
Qed.

Lemma add_keeps_ids_distinct_iff_fresh_witness :
  exists updated,
    persisted (pageOf [apfel] None karotteDraft)
      (handleAddProduct (fun _ => true) (pageOf [apfel] None karotteDraft))
    = [updated]
    /\ NoDup (Product.id <$> updated).
Proof.
  destruct (add_keeps_ids_distinct_iff_fresh (fun _ => true)
              (pageOf [apfel] None karotteDraft) _ _ _ _
              (karotteDraft_entered [apfel] None)) as (updated & Hp & Hiff).
  exists updated. split; [exact Hp|]. apply Hiff. split.
  - apply NoDup_singleton.
  - intros Hin. apply list_elem_of_singleton in Hin. discriminate Hin.
Defined.

(** Add, then delete by the identifier of the added record: when that
    identifier was not in use before, the delete persists the collection
    as it was before the add. *)
Theorem add_then_delete_restores resolves s name category unit kgFactor :
  entered (Page.newProduct s) name category unit kgFactor ->
  derive_id name ∉ (Product.id <$> Page.products s) ->
  exists updated,
    persisted s (handleAddProduct resolves s) = [updated]
    /\ forall s', Page.products s' = updated ->
         persisted s' (handleDeleteProduct resolves true (derive_id name) s')
         = [Page.products s].
Proof.
  intros H Hfresh. eexists. split; [apply (handleAddProduct_persisted _ _ _ _ _ _ H)|].
  intros s' E. rewrite handleDeleteProduct_confirmed, E. f_equal.
  apply (without_snoc_fresh (Page.products s)
           (newProductComplete (Page.products s) name category unit kgFactor)).
  exact Hfresh.
Qed.

Lemma add_then_delete_restores_witness :
  persisted (pageOf [apfel; karotte] None emptyDraft)
    (handleDeleteProduct (fun _ => true) true (js"karotte")
       (pageOf [apfel; karotte] None emptyDraft))
  = [[apfel]].
Proof.
  destruct (add_then_delete_restores (fun _ => true)
              (pageOf [apfel] None karotteDraft) _ _ _ _
              (karotteDraft_entered [apfel] None)) as (updated & Hp & Hd).
  - intros Hin. apply list_elem_of_singleton in Hin. discriminate Hin.
  - apply (Hd (pageOf [apfel; karotte] None emptyDraft)).
    assert (E : persisted (pageOf [apfel] None karotteDraft)
                  (handleAddProduct (fun _ => true) (pageOf [apfel] None karotteDraft))
                = [[apfel; karotte]]) by reflexivity.
    rewrite E in Hp. now injection Hp as <-.
Defined.

(** What a confirmed delete persists holds no record with the given id,
    is the collection with records left out but none moved or changed,
    keeps pairwise distinct ids distinct, and is the collection itself
    when no record has the id; deleting the same id from it once more
    persists it unchanged. *)
Theorem delete_leaves_no_match resolves productId s :
  exists updated,
    persisted s (handleDeleteProduct resolves true productId s) = [updated]
    /\ (productId ∉ (Product.id <$> updated))
    /\ sublist updated (Page.products s)
    /\ (NoDup (Product.id <$> Page.products s) -> NoDup (Product.id <$> updated))
    /\ (productId ∉ (Product.id <$> Page.products s) -> updated = Page.products s)
    /\ (forall s', Page.products s' = updated ->
          persisted s' (handleDeleteProduct resolves true productId s') = [updated]).
Proof.
  exists (without productId (Page.products s)).
  split; [apply handleDeleteProduct_confirmed|].
  split; [apply without_absent|].
  split; [apply sublist_filter|].
  split; [|split].
  - intros Hnd.
    apply (sublist_NoDup _ (Product.id <$> Page.products s)); [exact Hnd|].
    apply fmap_sublist. apply sublist_filter.
  - apply filter_other_ids.
  - intros s' E. rewrite handleDeleteProduct_confirmed, E. f_equal.
    apply filter_other_ids, without_absent.
Qed.

Lemma delete_leaves_no_match_witness :
  exists updated,
    persisted (pageOf [apfel; karotte] None emptyDraft)
      (handleDeleteProduct (fun _ => true) true (js"birne")
         (pageOf [apfel; karotte] None emptyDraft))
    = [updated]
    /\ updated = [apfel; karotte].
Proof.
  destruct (delete_leaves_no_match (fun _ => true) (js"birne")
              (pageOf [apfel; karotte] None emptyDraft))
    as (updated & Hp & _ & _ & _ & Hsame & _).
  exists updated. split; [exact Hp|]. apply Hsame.
  cbn. intros Hin.
  apply elem_of_cons in Hin as [Hin|Hin]; [discriminate Hin|].
  apply list_elem_of_singleton in Hin. discriminate Hin.
Defined.

(** Opening a record for editing and saving it untouched persists the
    collection as it is, provided its ids are pairwise distinct. *)
Theorem edit_untouched_then_save resolves s product :
  NoDup (Product.id <$> Page.products s) ->
  product ∈ Page.products s ->
  persisted (handleEditProduct product s).2
            (handleSaveEdit resolves (handleEditProduct product s).2)
  = [Page.products s].
Proof.
  intros Hnd Hin. apply persisted_one.
  rewrite (handleSaveEdit_run _ _ product) by reflexivity.
  cbn. now rewrite replaced_self.
Qed.

Lemma edit_untouched_then_save_witness :
  persisted (handleEditProduct karotte (pageOf [apfel; karotte] None emptyDraft)).2
    (handleSaveEdit (fun _ => true)
       (handleEditProduct karotte (pageOf [apfel; karotte] None emptyDraft)).2)
  = [[apfel; karotte]].
Proof.
  apply (edit_untouched_then_save (fun _ => true)
           (pageOf [apfel; karotte] None emptyDraft) karotte).
  - cbn. apply NoDup_cons. split; [|apply NoDup_singleton].
    intros Hin. apply list_elem_of_singleton in Hin. discriminate Hin.
  - right. left.
Defined.

(** After a save every record of the persisted collection that carries
    the draft's id is the draft, the draft is in the collection when its
    id was, and saving the same draft over the persisted collection
    changes nothing more. *)
Theorem save_edit_last_writer resolves s draft :
  Page.editingProduct s = Some draft ->
  exists updated,
    persisted s (handleSaveEdit resolves s) = [updated]
    /\ (forall p, p ∈ updated -> Product.id p = Product.id draft -> p = draft)
    /\ (Product.id draft ∈ (Product.id <$> Page.products s) -> draft ∈ updated)
    /\ (forall s', Page.products s' = updated ->
          Page.editingProduct s' = Some draft ->
          persisted s' (handleSaveEdit resolves s') = [updated]).
Proof.
  intros E. exists (replaced draft (Page.products s)).
  split; [apply persisted_one; now rewrite (handleSaveEdit_run _ _ draft)|].
  split; [|split].
  - intros p Hp Hid. apply list_elem_of_fmap in Hp as (q & -> & _).
    destruct (decide (Product.id q = Product.id draft)) as [Eq|Nq];
      [reflexivity|contradiction].
  - intros Hin. apply list_elem_of_fmap in Hin as (q & Hq & Hin).
    apply list_elem_of_fmap. exists q. split; [|assumption].
    now rewrite decide_True by congruence.
  - intros s' Ep Ee. apply persisted_one.
    rewrite (handleSaveEdit_run _ _ draft Ee), Ep. cbn.
    now rewrite replaced_idempotent.
Qed.

Lemma save_edit_last_writer_witness :
  exists updated,
    persisted (pageOf [apfel; apfelAgain] (Some apfelAgain) emptyDraft)
      (handleSaveEdit (fun _ => true)
         (pageOf [apfel; apfelAgain] (Some apfelAgain) emptyDraft))
    = [updated]
    /\ forall p, p ∈ updated -> Product.id p = js"apfel" -> p = apfelAgain.
Proof.
  destruct (save_edit_last_writer (fun _ => true)
              (pageOf [apfel; apfelAgain] (Some apfelAgain) emptyDraft)
              apfelAgain eq_refl) as (updated & Hp & Hl & _).
  exists updated. split; [exact Hp|exact Hl].
Defined.

(** A save that is rejected leaves both drafts as they are, so the user
    can try again: the handler ends at the awaited call. *)
Theorem rejected_save_keeps_drafts resolves s :
  (forall draft,
     Page.editingProduct s = Some draft ->
     resolves (replaced draft (Page.products s)) = false ->
     (handleSaveEdit resolves s).1 = Rejected
     /\ Page.editingProduct (handleSaveEdit resolves s).2 = Some draft
     /\ Page.newProduct (handleSaveEdit resolves s).2 = Page.newProduct s)
  /\ (forall name category unit kgFactor,
        entered (Page.newProduct s) name category unit kgFactor ->
        resolves (Page.products s ++
                  [newProductComplete (Page.products s) name category unit kgFactor])
        = false ->
        (handleAddProduct resolves s).1 = Rejected
        /\ Page.newProduct (handleAddProduct resolves s).2 = Page.newProduct s
        /\ Page.editingProduct (handleAddProduct resolves s).2 = Page.editingProduct s
        /\ persisted (handleAddProduct resolves s).2
             (handleAddProduct resolves (handleAddProduct resolves s).2)
           = [Page.products s ++
                [newProductComplete (Page.products s) name category unit kgFactor]]).
Proof.
  split.
  - intros draft E R. rewrite (handleSaveEdit_run _ _ draft E), R. auto.
  - intros name category unit kgFactor H R.
    rewrite (handleAddProduct_run _ _ _ _ _ _ H). cbn zeta. rewrite R.
    repeat split.
    apply (handleAddProduct_persisted resolves
             (Page.mk (Page.products s) (Page.editingProduct s) (Page.newProduct s)
                      (Page.saved s ++
                       [Page.products s ++
                        [newProductComplete (Page.products s) name category unit
                           kgFactor]])
                      (S (Page.scrollSaves s)))).
    exact H.
Qed.

Lemma rejected_save_keeps_drafts_witness :
  Page.newProduct
    (handleAddProduct (fun _ => false) (pageOf [apfel] None karotteDraft)).2
  = karotteDraft
  /\ Page.editingProduct
       (handleSaveEdit (fun _ => false) (pageOf [apfel] (Some apfelAgain) emptyDraft)).2
     = Some apfelAgain.
Proof.
  split.
  - apply (rejected_save_keeps_drafts (fun _ => false)
             (pageOf [apfel] None karotteDraft)
           ) with (name := js"Karotte") (category := vegetables)
                  (unit := js"Stück") (kgFactor := 5%float);
      [apply karotteDraft_entered|reflexivity].
  - apply (rejected_save_keeps_drafts (fun _ => false)
             (pageOf [apfel] (Some apfelAgain) emptyDraft));
      reflexivity.
Defined.

(** After an add whose save resolved the form is back at its initial
    draft, the add button is disabled, and running the handler again
    persists nothing. *)
Theorem add_resets_form resolves s name category unit kgFactor :
  entered (Page.newProduct s) name category unit kgFactor ->
  resolves (Page.products s ++
            [newProductComplete (Page.products s) name category unit kgFactor])
  = true ->
  (handleAddProduct resolves s).1 = Returned ()
  /\ Page.newProduct (handleAddProduct resolves s).2 = emptyDraft
  /\ addDisabled (Page.newProduct (handleAddProduct resolves s).2) = true
  /\ persisted (handleAddProduct resolves s).2
       (handleAddProduct resolves (handleAddProduct resolves s).2) = [].
Proof.
  intros H R. rewrite (handleAddProduct_run _ _ _ _ _ _ H). cbn zeta. rewrite R.
  repeat split. apply persisted_none.
  now rewrite handleAddProduct_rejected.
Qed.

Lemma add_resets_form_witness :
  Page.newProduct
    (handleAddProduct (fun _ => true) (pageOf [apfel] None karotteDraft)).2
  = emptyDraft.
Proof.
  apply (add_resets_form (fun _ => true) (pageOf [apfel] None karotteDraft)
           (js"Karotte") vegetables (js"Stück") 5%float);
    [apply karotteDraft_entered|reflexivity].
Defined.



(** ** What the forms can produce *)

Lemma emptyDraft_formDraft : formDraft emptyDraft.
Proof.
  unfold formDraft, emptyDraft. cbn. split; [|split; [|split]].
  - exists vegetables. split; [reflexivity|]. right. left.
  - exists (js"Stück"). split; [reflexivity|]. left.
  - eauto.
  - discriminate.
Qed.

Lemma onNewChange_frame f s :
  Page.products (onNewChange f s).2 = Page.products s
  /\ Page.editingProduct (onNewChange f s).2 = Page.editingProduct s
  /\ Page.saved (onNewChange f s).2 = Page.saved s
  /\ Page.scrollSaves (onNewChange f s).2 = Page.scrollSaves s.
Proof. destruct f; repeat split. Qed.

Lemma onNewChange_formDraft f s :
  offeredNew (Page.newProduct s) f = true ->
  formDraft (Page.newProduct s) ->
  formDraft (Page.newProduct (onNewChange f s).2).
Proof.
  intros Ho ((c & Hc & Hco) & (u & Hu & Huo) & (k & Hk) & Hkg).
  destruct f as [v|v|v|v]; cbn in Ho |- *.
  - split; [|split; [|split]]; eauto.
  - apply bool_decide_eq_true in Ho. split; [|split; [|split]]; eauto.
  - apply bool_decide_eq_true in Ho. unfold unitChangeDraft.
    split; [|split; [|split]]; cbn; eauto.
    + case_decide; eauto.
    + intros [= ->]. now rewrite decide_True.
  - unfold newKgFactorDisabled in Ho. apply negb_true_iff in Ho.
    apply bool_decide_eq_false in Ho.
    split; [|split; [|split]]; cbn; eauto. tauto.
Qed.

Lemma onEditChange_scroll f s :
  Page.scrollSaves (onEditChange f s).2 = Page.scrollSaves s
  /\ Page.newProduct (onEditChange f s).2 = Page.newProduct s.
Proof.
  destruct s as [products [editing|] draft saved scroll], f; split; reflexivity.
Qed.

Lemma onEditChange_wellFormed f s p :
  Page.editingProduct s = Some p ->
  offeredEdit p f = true ->
  wellFormed p ->
  exists p', Page.editingProduct (onEditChange f s).2 = Some p' /\ wellFormed p'.
Proof.
  intros E Ho (Hid & Hc & Hu & Hkg).
  destruct s as [products editing draft saved scroll]. cbn in E. subst editing.
  destruct f as [v|v|v|v]; cbn in Ho |- *; (eexists; split; [reflexivity|]).
  - repeat split; assumption.
  - apply bool_decide_eq_true in Ho. repeat split; assumption.
  - apply bool_decide_eq_true in Ho. unfold nullish.
    repeat split; cbn; try assumption.
    intros ->. now rewrite decide_True.
  - unfold editKgFactorDisabled in Ho. apply negb_true_iff in Ho.
    apply bool_decide_eq_false in Ho. repeat split; cbn; try assumption. tauto.
Qed.

Lemma submittable_entered d :
  submittable d = true -> exists name category unit kgFactor,
    entered d name category unit kgFactor.
Proof.
  intros H. apply submittable_spec in H as (Hn & Hc & Hu & Hk).
  apply truthyField_Some in Hn as (n & Hn & Nn).
  apply truthyField_Some in Hc as (c & Hc & Nc).
  apply truthyField_Some in Hu as (u & Hu & Nu).
  destruct (Draft.kgFactor d) as [k|] eqn:Ek; [|contradiction].
  exists n, c, u, k. unfold entered. rewrite Ek. auto 10.
Qed.

(** For a draft the form produced the add button is enabled exactly when
    the handler would submit. *)
Lemma formDraft_submittable d :
  formDraft d -> submittable d = negb (addDisabled d).
Proof.
  intros ((c & Hc & Hco) & (u & Hu & Huo) & (k & Hk) & _).
  unfold submittable, addDisabled. rewrite Hc, Hu, Hk, negb_involutive.
  assert (Tc : truthyField (Some c) = true).
  { apply truthyField_Some. exists c. split; [reflexivity|].
    unfold categoryOptions in Hco.
    repeat (apply elem_of_cons in Hco as [->|Hco]); try discriminate.
    now apply elem_of_nil in Hco. }
  assert (Tu : truthyField (Some u) = true).
  { apply truthyField_Some. exists u. split; [reflexivity|].
    unfold unitOptions in Huo.
    repeat (apply elem_of_cons in Huo as [->|Huo]); try discriminate.
    now apply elem_of_nil in Huo. }
  rewrite Tc, Tu, bool_decide_eq_true_2 by discriminate.
  now rewrite !andb_true_r.
Qed.

Lemma newProductComplete_wellFormed products d name category unit kgFactor :
  formDraft d -> entered d name category unit kgFactor ->
  wellFormed (newProductComplete products name category unit kgFactor).
Proof.
  intros ((c & Hc & Hco) & (u & Hu & Huo) & _ & Hkg)
         (Hn & Nn & Hc' & _ & Hu' & _ & Hk).
  assert (c = category) as -> by congruence.
  assert (u = unit) as -> by congruence.
  unfold wellFormed, newProductComplete. cbn. repeat split; try assumption.
  - intros E. pose proof (derive_id_length name) as L. rewrite E in L.
    destruct name; [contradiction|cbn in L; lia].
  - intros ->. specialize (Hkg Hu'). congruence.
Qed.

Lemma replaced_wellFormed draft (products : list Product.t) :
  wellFormed draft -> Forall wellFormed products ->
  Forall wellFormed (replaced draft products).
Proof.
  intros Hd Hp. apply Forall_fmap. eapply Forall_impl; [exact Hp|].
  intros p Hwf. cbn. now case_decide.
Qed.

Lemma handleSaveEdit_cases resolves s :
  match Page.editingProduct s with
  | Some draft =>
    handleSaveEdit resolves s =
    (if resolves (replaced draft (Page.products s)) then Returned () else Rejected,
     Page.mk (Page.products s)
             (if resolves (replaced draft (Page.products s)) then None else Some draft)
             (Page.newProduct s)
             (Page.saved s ++ [replaced draft (Page.products s)])
             (S (Page.scrollSaves s)))
  | None => handleSaveEdit resolves s = (Returned (), s)
  end.
Proof.
  destruct (Page.editingProduct s) as [draft|] eqn:E.
  - now apply handleSaveEdit_run.
  - now apply handleSaveEdit_idle.
Qed.

Lemma handleAddProduct_cases resolves s :
  (submittable (Page.newProduct s) = false
   /\ handleAddProduct resolves s = (Returned (), s))
  \/ exists name category unit kgFactor,
       entered (Page.newProduct s) name category unit kgFactor
       /\ handleAddProduct resolves s =
          (if resolves (Page.products s ++
                [newProductComplete (Page.products s) name category unit kgFactor])
           then Returned () else Rejected,
           Page.mk (Page.products s) (Page.editingProduct s)
             (if resolves (Page.products s ++
                [newProductComplete (Page.products s) name category unit kgFactor])
              then emptyDraft else Page.newProduct s)
             (Page.saved s ++
                [Page.products s ++
                 [newProductComplete (Page.products s) name category unit kgFactor]])
             (S (Page.scrollSaves s))).
Proof.
  destruct (submittable (Page.newProduct s)) eqn:G.
  - right. destruct (submittable_entered _ G) as (n & c & u & k & H).
    exists n, c, u, k. split; [assumption|].
    apply (handleAddProduct_run resolves s n c u k H).
  - left. split; [reflexivity|]. now apply handleAddProduct_rejected.
Qed.

(** One offered event keeps the invariant. *)
Lemma dispatch_invariant resolves s e :
  pageInvariant s -> offered s e ->
  (forall products, e = Deliver products -> Forall wellFormed products) ->
  pageInvariant (dispatch resolves e s).2.
Proof.
  intros (Hps & Hd & He & Hs) Ho Hdel.
  destruct e as [f|f| |product| | |productId confirmed|products];
    cbn [dispatch offered] in *.
  - destruct (onNewChange_frame f s) as (E1 & E2 & E3 & _).
    unfold pageInvariant. rewrite E1, E2, E3.
    split; [|split; [|split]]; try assumption. now apply onNewChange_formDraft.
  - destruct Ho as (p & Ep & Ho).
    destruct (onEditChange_frame f s) as (E1 & E3).
    destruct (onEditChange_scroll f s) as (_ & E2).
    destruct (onEditChange_wellFormed f s p Ep Ho (He p Ep)) as (p' & Ep' & Hp').
    unfold pageInvariant. rewrite E1, E2, E3, Ep'.
    split; [|split; [|split]]; try assumption. now intros ? [= <-].
  - destruct (handleAddProduct_cases resolves s)
      as [[_ ->]|(n & c & u & k & H & ->)];
      [split; [|split; [|split]]; assumption|].
    pose proof (newProductComplete_wellFormed (Page.products s) _ _ _ _ _ Hd H) as Hn.
    assert (Hu : Forall wellFormed
              (Page.products s ++ [newProductComplete (Page.products s) n c u k])).
    { apply Forall_app. split; [assumption|]. now apply Forall_singleton. }
    unfold pageInvariant. cbn [snd Page.products Page.editingProduct
                               Page.newProduct Page.saved].
    split; [|split; [|split]]; try assumption.
    + destruct (resolves _); [apply emptyDraft_formDraft|assumption].
    + apply Forall_app. split; [assumption|]. now apply Forall_singleton.
  - unfold pageInvariant. cbn. split; [|split; [|split]]; try assumption.
    intros p [= <-]. rewrite Forall_forall in Hps. auto.
  - pose proof (handleSaveEdit_cases resolves s) as Hc.
    destruct (Page.editingProduct s) as [draft|] eqn:E; rewrite Hc.
    + assert (Hu : Forall wellFormed (replaced draft (Page.products s)))
        by (apply replaced_wellFormed; auto).
      unfold pageInvariant. cbn [snd Page.products Page.editingProduct
                                 Page.newProduct Page.saved].
      split; [|split; [|split]]; try assumption.
      * intros p. destruct (resolves _); [discriminate|]. intros [= <-]. auto.
      * apply Forall_app. split; [assumption|]. now apply Forall_singleton.
    + split; [|split; [|split]]; try assumption. cbn. now rewrite E.
  - unfold pageInvariant. cbn. split; [|split; [|split]]; try assumption.
    discriminate.
  - destruct confirmed; [|split; [|split; [|split]]; assumption].
    unfold pageInvariant. cbn. split; [|split; [|split]]; try assumption.
    apply Forall_app. split; [assumption|]. apply Forall_singleton.
    apply Forall_forall. intros p Hp. apply list_elem_of_filter in Hp as [_ Hp].
    rewrite Forall_forall in Hps. auto.
  - unfold pageInvariant. cbn. split; [|split; [|split]]; try assumption.
    now apply Hdel.
Qed.

Lemma run_invariant resolves events : forall s,
  pageInvariant s -> offeredRun resolves s events ->
  (forall products, Deliver products ∈ events -> Forall wellFormed products) ->
  pageInvariant (run resolves events s).
Proof.
  induction events as [|e events IH]; intros s Hi Ho Hdel; [assumption|].
  destruct Ho as [Ho Hrest]. cbn [run foldl]. apply IH.
  - apply dispatch_invariant; [assumption..|].
    intros products ->. apply Hdel. left.
  - assumption.
  - intros products Hin. apply Hdel. now right.
Qed.

Lemma initialPage_invariant products :
  Forall wellFormed products -> pageInvariant (initialPage products).
Proof.
  intros H. unfold pageInvariant, initialPage, pageOf. cbn.
  split; [|split; [|split]];
    [assumption|apply emptyDraft_formDraft|discriminate|constructor].
Qed.

Lemma wellFormed_typed p : wellFormed p -> typed p.
Proof.
  intros (_ & Hc & _). unfold typed, knownCategory, categoryOptions in *.
  repeat (apply elem_of_cons in Hc as [Hc|Hc]); auto.
  now apply elem_of_nil in Hc.
Qed.

Lemma apfel_wellFormed : wellFormed apfel.
Proof.
  split; [discriminate|]. split; [left|]. split; [right; left|]. reflexivity.
Qed.

Lemma enterAndAdd_offered resolves :
  offeredRun resolves (initialPage [apfel]) (enterAndAdd (js"Karotte") (js"Bund") 0%float).
Proof. cbn. repeat split. Qed.

(** The page hands on what it was handed: starting from its first render
    over a collection of well-formed records, and with the store
    delivering only such collections, every collection the page passes to
    saveProducts, under any run of events its forms and buttons offer,
    holds only well-formed records: typed, with a non-empty id, a unit
    among the options and kgFactor 1 for the unit kg. *)
Theorem page_persists_well_formed_records resolves products events :
  Forall wellFormed products ->
  offeredRun resolves (initialPage products) events ->
  (forall delivered, Deliver delivered ∈ events -> Forall wellFormed delivered) ->
  forall collection p,
    collection ∈ Page.saved (run resolves events (initialPage products)) ->
    p ∈ collection ->
    typed p /\ Product.id p <> [] /\ Product.unit p ∈ unitOptions
    /\ (Product.unit p = kg -> Product.kgFactor p = 1%float).
Proof.
  intros Hp Ho Hd collection p Hc Hin.
  destruct (run_invariant resolves events _ (initialPage_invariant _ Hp) Ho Hd)
    as (_ & _ & _ & Hs).
  rewrite Forall_forall in Hs. specialize (Hs _ Hc).
  rewrite Forall_forall in Hs. specialize (Hs _ Hin).
  split; [now apply wellFormed_typed|]. destruct Hs as (? & _ & ? & ?). auto.
Qed.

Lemma page_persists_well_formed_records_witness :
  Forall (Forall typed)
    (Page.saved (run (fun _ => true)
                     (enterAndAdd (js"Karotte") (js"Bund") 0%float)
                     (initialPage [apfel]))).
Proof.
  apply Forall_forall. intros collection Hc.
  apply Forall_forall. intros p Hin.
  apply (page_persists_well_formed_records (fun _ => true) [apfel]
           (enterAndAdd (js"Karotte") (js"Bund") 0%float)) with (collection := collection).
  - constructor; [apply apfel_wellFormed|constructor].
  - apply enterAndAdd_offered.
  - intros delivered Hin'. unfold enterAndAdd in Hin'.
    repeat (apply elem_of_cons in Hin' as [Hin'|Hin']; [discriminate Hin'|]).
    now apply elem_of_nil in Hin'.
  - exact Hc.
  - exact Hin.
Defined.

Lemma dispatch_formDraft resolves s e :
  formDraft (Page.newProduct s) -> offered s e ->
  formDraft (Page.newProduct (dispatch resolves e s).2).
Proof.
  intros Hd Ho.
  destruct e as [f|f| |product| | |productId confirmed|products];
    cbn [dispatch offered] in *; try assumption.
  - now apply onNewChange_formDraft.
  - now destruct (onEditChange_scroll f s) as (_ & ->).
  - destruct (handleAddProduct_cases resolves s)
      as [[_ ->]|(n & c & u & k & H & ->)]; [assumption|]. cbn.
    destruct (resolves _); [apply emptyDraft_formDraft|assumption].
  - pose proof (handleSaveEdit_cases resolves s) as Hc.
    destruct (Page.editingProduct s); rewrite Hc; assumption.
  - destruct confirmed; assumption.
Qed.

Lemma run_formDraft resolves events : forall s,
  formDraft (Page.newProduct s) -> offeredRun resolves s events ->
  formDraft (Page.newProduct (run resolves events s)).
Proof.
  induction events as [|e events IH]; intros s Hd Ho; [assumption|].
  destruct Ho as [Ho Hrest]. cbn [run foldl]. apply IH; [|assumption].
  now apply dispatch_formDraft.
Qed.

(** In every state the page reaches from its first render through events
    it offers, the add button is enabled exactly when the add handler
    would hand a collection to saveProducts: the category, the unit and
    the kgFactor the condition of the handler asks for are always there. *)
Theorem add_button_matches_handler resolves products events :
  offeredRun resolves (initialPage products) events ->
  addDisabled (Page.newProduct (run resolves events (initialPage products))) = false
  <-> exists collection,
        persisted (run resolves events (initialPage products))
          (handleAddProduct resolves (run resolves events (initialPage products)))
        = [collection].
Proof.
  intros Ho.
  pose proof (run_formDraft resolves events (initialPage products)
                emptyDraft_formDraft Ho) as Hd.
  pose proof (formDraft_submittable _ Hd) as E.
  destruct (handleAddProduct_cases resolves (run resolves events (initialPage products)))
    as [[G Hr]|(n & c & u & k & H & Hr)].
  - rewrite G in E. split.
    + intros D. rewrite D in E. discriminate.
    + intros [collection Hc]. rewrite Hr in Hc.
      rewrite persisted_none in Hc by reflexivity. discriminate.
  - split.
    + intros _. eexists. apply (handleAddProduct_persisted _ _ _ _ _ _ H).
    + intros _. destruct H as (Hn & Nn & _). unfold addDisabled. rewrite Hn.
      destruct n; [contradiction|reflexivity].
Qed.

Lemma add_button_matches_handler_witness :
  addDisabled (Page.newProduct
    (run (fun _ => true) [ChangeNew (NameField (js"Karotte"))] (initialPage [apfel])))
  = false.
Proof.
  apply (add_button_matches_handler (fun _ => true) [apfel]
           [ChangeNew (NameField (js"Karotte"))]).
  - cbn. repeat split.
  - eexists. reflexivity.
Defined.

(** ** What an event can do to the log and the collection *)

Lemma handleEditProduct_run product s :
  handleEditProduct product s =
  (Returned (),
   Page.mk (Page.products s) (Some product) (Page.newProduct s) (Page.saved s)
           (S (Page.scrollSaves s))).
Proof. reflexivity. Qed.

Lemma handleDeleteProduct_run resolves productId s :
  handleDeleteProduct resolves true productId s =
  (if resolves (without productId (Page.products s)) then Returned () else Rejected,
   Page.mk (Page.products s) (Page.editingProduct s) (Page.newProduct s)
           (Page.saved s ++ [without productId (Page.products s)])
           (S (Page.scrollSaves s))).
Proof. reflexivity. Qed.

Lemma dispatch_log resolves e s :
  exists more,
    Page.saved (dispatch resolves e s).2 = Page.saved s ++ more
    /\ (length more <= if mayPersist e then 1 else 0)%nat
    /\ (length more + Page.scrollSaves s
        <= Page.scrollSaves (dispatch resolves e s).2)%nat
    /\ Page.products (dispatch resolves e s).2
       = match e with Deliver delivered => delivered | _ => Page.products s end.
Proof.
  destruct e as [f|f| |product| | |productId confirmed|products];
    cbn [dispatch mayPersist].
  - destruct (onNewChange_frame f s) as (E1 & _ & E3 & E4).
    exists []. rewrite E1, E3, E4, app_nil_r. cbn. repeat split; try reflexivity; lia.
  - destruct (onEditChange_frame f s) as (E1 & E3).
    destruct (onEditChange_scroll f s) as (E4 & _).
    exists []. rewrite E1, E3, E4, app_nil_r. cbn. repeat split; try reflexivity; lia.
  - destruct (handleAddProduct_cases resolves s)
      as [[_ ->]|(n & c & u & k & H & ->)].
    + exists []. rewrite app_nil_r. cbn. repeat split; try reflexivity; lia.
    + eexists. cbn. split; [reflexivity|]. cbn. repeat split; try reflexivity; lia.
  - rewrite handleEditProduct_run.
    exists []. rewrite app_nil_r. cbn. repeat split; try reflexivity; lia.
  - pose proof (handleSaveEdit_cases resolves s) as Hc.
    destruct (Page.editingProduct s); rewrite Hc.
    + eexists. cbn. split; [reflexivity|]. cbn. repeat split; try reflexivity; lia.
    + exists []. rewrite app_nil_r. cbn. repeat split; try reflexivity; lia.
  - exists []. rewrite app_nil_r. cbn. repeat split; try reflexivity; lia.
  - destruct confirmed.
    + rewrite handleDeleteProduct_run.
      eexists. cbn. split; [reflexivity|]. cbn. repeat split; try reflexivity; lia.
    + exists []. rewrite app_nil_r. cbn. repeat split; try reflexivity; lia.
  - exists []. rewrite app_nil_r. cbn. repeat split; try reflexivity; lia.
Qed.

(** Over any run of events the page only ever appends to what it has
    handed to saveProducts, at most one collection for each add, save or
    confirmed delete and none for any other event, and it has saved the
    scroll position at least once for each collection it handed over. *)
Theorem events_persist_at_most_once resolves events : forall s,
  exists more,
    Page.saved (run resolves events s) = Page.saved s ++ more
    /\ (length more <= length (filter (fun e => mayPersist e = true) events))%nat
    /\ (length more + Page.scrollSaves s
        <= Page.scrollSaves (run resolves events s))%nat.
Proof.
  induction events as [|e events IH]; intros s.
  - exists []. rewrite app_nil_r. cbn. repeat split; try reflexivity; lia.
  - cbn [run foldl].
    destruct (dispatch_log resolves e s) as (m1 & E1 & L1 & S1 & _).
    destruct (IH (dispatch resolves e s).2) as (m2 & E2 & L2 & S2).
    exists (m1 ++ m2). unfold run in E2, S2. rewrite E2, E1, app_assoc.
    split; [reflexivity|]. rewrite length_app, filter_cons.
    revert L1. destruct (mayPersist e); intros L1.
    + rewrite decide_True by reflexivity. cbn [length]. lia.
    + rewrite decide_False by discriminate. lia.
Qed.

(** ** The rendered view as a whole *)

Lemma categories_distinct :
  fruits <> vegetables /\ fruits <> salads /\ vegetables <> salads.
Proof. repeat split; discriminate. Qed.

Lemma rendered_cards lc products groups :
  render lc false None products = Some (CatalogView groups) ->
  Forall (fun p => inherited (Product.category p) = false) products
  /\ (cards <$> groups)
     = [groupOf fruits (sortedProducts lc products);
        groupOf vegetables (sortedProducts lc products);
        groupOf salads (sortedProducts lc products)]
  /\ (key <$> groups) = [fruits; vegetables; salads]
  /\ (heading <$> groups) = [js"Obst"; js"Gemüse"; js"Salate"].
Proof.
  intros Er.
  assert (HP : Forall (fun q => inherited (Product.category q) = false) products).
  { apply Forall_forall. intros q Hq.
    destruct (inherited (Product.category q)) eqn:E; [exfalso|reflexivity].
    assert (render lc false None products = None) as N; [|congruence].
    apply render_throws, Exists_exists. eauto. }
  split; [assumption|].
  destruct (render_plain lc products HP) as (g & _ & Er' & _ & Hc).
  rewrite Er' in Er. injection Er as <-.
  unfold renderGroups, categoryNames. cbn [fmap list_fmap cards key heading].
  rewrite !Hc. auto.
Qed.

(** The three groups of a list, one after the other, hold its typed
    products. *)
Lemma groups_typed (l : list Product.t) :
  groupOf fruits l ++ groupOf vegetables l ++ groupOf salads l
  ≡ₚ filter (fun p => typed p) l.
Proof.
  destruct categories_distinct as (Nfv & Nfs & Nvs).
  induction l as [|p l IH]; [reflexivity|].
  rewrite !(filter_cons _ p).
  destruct (decide (Product.category p = fruits)) as [Ef|Nf].
  - rewrite decide_False, decide_False, decide_True by (unfold typed, knownCategory; auto; congruence).
    cbn. now rewrite IH.
  - destruct (decide (Product.category p = vegetables)) as [Ev|Nv].
    + rewrite decide_False, decide_True by (unfold typed, knownCategory; auto; congruence).
      cbn [app]. rewrite <- Permutation_middle. now rewrite IH.
    + destruct (decide (Product.category p = salads)) as [Es|Ns].
      * rewrite decide_True by (unfold typed, knownCategory; auto).
        rewrite app_assoc, <- Permutation_middle, <- app_assoc. now rewrite IH.
      * rewrite decide_False by (unfold typed, knownCategory; tauto).
        exact IH.
Qed.

Lemma compareKeys_rank lc a b :
  compareKeys lc a b <= 0 -> rank a <= rank b.
Proof.
  unfold compareKeys. destruct (Z.eqb_spec (rank a) (rank b)); lia.
Qed.

Lemma categoryOrder_values :
  categoryOrder fruits = Some 1 /\ categoryOrder vegetables = Some 2
  /\ categoryOrder salads = Some 3.
Proof. repeat split. Qed.

Lemma rank_category p :
  typed p ->
  (Product.category p = fruits <-> rank p = 1)
  /\ (Product.category p = vegetables <-> rank p = 2)
  /\ (Product.category p = salads <-> rank p = 3).
Proof.
  destruct categories_distinct as (Nfv & Nfs & Nvs).
  destruct categoryOrder_values as (C1 & C2 & C3).
  unfold typed, knownCategory, rank.
  intros [E|[E|E]]; rewrite E; [rewrite C1|rewrite C2|rewrite C3];
    cbn [default]; (split; [|split]); split; intros H;
    try reflexivity; try discriminate H; congruence.
Qed.

(** A typed list in ascending order of the composite key is its three
    groups one after the other. *)
Lemma sorted_groups lc (l : list Product.t) :
  Forall typed l ->
  StronglySorted (fun a b => compareKeys lc a b <= 0) l ->
  l = groupOf fruits l ++ groupOf vegetables l ++ groupOf salads l.
Proof.
  destruct categories_distinct as (Nfv & Nfs & Nvs).
  intros HT Hs. induction Hs as [|a t Hs IH Hat]; [reflexivity|].
  apply Forall_cons in HT as [Ha Ht]. specialize (IH Ht).
  assert (Hnone : forall k, (forall b, typed b -> Product.category b = k ->
                               rank b < rank a) -> groupOf k t = []).
  { intros k Hlt. apply groupOf_nil_iff. intros b Hb Eb.
    rewrite Forall_forall in Ht, Hat.
    pose proof (Hlt b (Ht b Hb) Eb).
    pose proof (compareKeys_rank lc a b (Hat b Hb)). lia. }
  destruct (rank_category a Ha) as (Fa & Va & Sa).
  destruct Ha as [Ea|[Ea|Ea]].
  - rewrite filter_cons_True, !filter_cons_False by congruence.
    cbn. now f_equal.
  - assert (F0 : groupOf fruits t = []).
    { apply Hnone. intros b Hb Eb. destruct (rank_category b Hb) as (Fb & _).
      apply Fb in Eb. apply Va in Ea. lia. }
    rewrite filter_cons_False, filter_cons_True, filter_cons_False by congruence.
    rewrite F0 in IH |- *. cbn in IH |- *. now f_equal.
  - assert (F0 : groupOf fruits t = []).
    { apply Hnone. intros b Hb Eb. destruct (rank_category b Hb) as (Fb & _).
      apply Fb in Eb. apply Sa in Ea. lia. }
    assert (V0 : groupOf vegetables t = []).
    { apply Hnone. intros b Hb Eb. destruct (rank_category b Hb) as (_ & Vb & _).
      apply Vb in Eb. apply Sa in Ea. lia. }
    rewrite filter_cons_False, filter_cons_False, filter_cons_True by congruence.
    rewrite F0, V0 in IH |- *. cbn in IH |- *. now f_equal.
Qed.

Lemma concat_three {A : Type} (a b c : list A) : concat [a; b; c] = a ++ b ++ c.
Proof. cbn. now rewrite app_nil_r. Qed.

Lemma rendered_cards_typed lc products groups :
  render lc false None products = Some (CatalogView groups) ->
  concat (cards <$> groups) ≡ₚ filter (fun p => typed p) products.
Proof.
  intros Er. destruct (rendered_cards lc products groups Er) as (_ & -> & _).
  rewrite concat_three, groups_typed. now rewrite sortedProducts_perm.
Qed.

(** The view shows every typed product of the collection once and no
    other product; when the whole collection is typed, the cards read
    group after group are the sorted sequence itself. *)
Theorem view_shows_typed_products lc products groups :
  render lc false None products = Some (CatalogView groups) ->
  concat (cards <$> groups) ≡ₚ filter (fun p => typed p) products
  /\ (JsArray.Consistent (fun _ => True) lc -> Forall typed products ->
      concat (cards <$> groups) = sortedProducts lc products).
Proof.
  intros Er. split; [now apply (rendered_cards_typed lc)|].
  destruct (rendered_cards lc products groups Er) as (_ & -> & _).
  rewrite concat_three.
  intros Hc HT. symmetry. apply (sorted_groups lc).
  - now rewrite sortedProducts_perm.
  - now destruct (sortedProducts_StableSort lc Hc products HT) as (_ & ? & _).
Qed.

Lemma view_shows_typed_products_witness :
  exists groups,
    render germanPrimary false None [karotte; stray (js"exotic"); apfel]
    = Some (CatalogView groups)
    /\ concat (cards <$> groups) ≡ₚ [karotte; apfel].
Proof.
  destruct (render_plain germanPrimary [karotte; stray (js"exotic"); apfel])
    as (g & _ & Er & _).
  { repeat (constructor; [reflexivity|]). constructor. }
  exists (renderGroups g). split; [exact Er|].
  apply (view_shows_typed_products germanPrimary
           [karotte; stray (js"exotic"); apfel] (renderGroups g) Er).
Defined.

Lemma StronglySorted_filter {A : Type} (R : A -> A -> Prop) (P : A -> Prop)
    `{forall x, Decision (P x)} (l : list A) :
  StronglySorted R l -> StronglySorted R (filter P l).
Proof.
  induction 1 as [|a t Hs IH Hat]; [constructor|].
  rewrite filter_cons. case_decide; [|assumption].
  constructor; [assumption|].
  apply Forall_forall. intros b Hb. apply list_elem_of_filter in Hb as [_ Hb].
  rewrite Forall_forall in Hat. auto.
Qed.

Lemma StronglySorted_on {A : Type} (R R' : A -> A -> Prop) (l : list A) :
  (forall a b, a ∈ l -> b ∈ l -> R a b -> R' a b) ->
  StronglySorted R l -> StronglySorted R' l.
Proof.
  intros HR Hs. induction Hs as [|a t Hs IH Hat]; constructor.
  - apply IH. intros x y Hx Hy. apply HR; now right.
  - rewrite Forall_forall in Hat |- *. intros b Hb.
    apply HR; [left|now right|auto].
Qed.

Lemma categoryLabel_values :
  categoryLabel fruits = Some (js"Obst")
  /\ categoryLabel vegetables = Some (js"Gemüse")
  /\ categoryLabel salads = Some (js"Salate").
Proof. repeat split. Qed.

Lemma group_sorted_by_name lc products k :
  JsArray.Consistent (fun _ => True) lc -> Forall typed products ->
  StronglySorted (fun a b => lc (Product.name a) (Product.name b) <= 0)
                 (groupOf k (sortedProducts lc products)).
Proof.
  intros Hc HT.
  destruct (sortedProducts_StableSort lc Hc products HT) as (_ & Hs & _).
  apply (StronglySorted_on (fun a b => compareKeys lc a b <= 0));
    [|now apply StronglySorted_filter].
  intros a b Ha Hb. apply list_elem_of_filter in Ha as [Ea _].
  apply list_elem_of_filter in Hb as [Eb _].
  unfold compareKeys, rank. now rewrite Ea, Eb, Z.eqb_refl.
Qed.

(** In a view of a typed collection every card lies in the group of its
    own category, under the heading its category is labelled with, and
    the cards of a group ascend by name under the collation. *)
Theorem groups_sorted_by_name lc products groups :
  JsArray.Consistent (fun _ => True) lc -> Forall typed products ->
  render lc false None products = Some (CatalogView groups) ->
  forall g, g ∈ groups ->
    Forall (fun p => Product.category p = key g
                     /\ categoryLabel (Product.category p) = Some (heading g))
           (cards g)
    /\ StronglySorted (fun a b => lc (Product.name a) (Product.name b) <= 0)
                      (cards g).
Proof.
  intros Hc HT Er g Hg.
  destruct (rendered_cards lc products groups Er) as (_ & Ec & Ek & Eh).
  destruct categoryLabel_values as (L1 & L2 & L3).
  destruct groups as [|g1 [|g2 [|g3 [|g4 rest]]]]; try discriminate Ek.
  cbn [fmap list_fmap] in Ec, Ek, Eh.
  injection Ec as C1 C2 C3. injection Ek as K1 K2 K3. injection Eh as H1 H2 H3.
  assert (Hgroup : forall k h c,
            categoryLabel k = Some h ->
            c = groupOf k (sortedProducts lc products) ->
            Forall (fun p => Product.category p = k
                             /\ categoryLabel (Product.category p) = Some h) c
            /\ StronglySorted
                 (fun a b => lc (Product.name a) (Product.name b) <= 0) c).
  { intros k h c Hl ->. split; [|now apply group_sorted_by_name].
    apply Forall_forall. intros p Hp. apply list_elem_of_filter in Hp as [Ep _].
    now rewrite Ep. }
  repeat (apply elem_of_cons in Hg as [->|Hg]).
  - rewrite K1, H1. now apply Hgroup.
  - rewrite K2, H2. now apply Hgroup.
  - rewrite K3, H3. now apply Hgroup.
  - now apply elem_of_nil in Hg.
Qed.

Lemma typed_samples : Forall typed [karotte; apfel].
Proof.
  constructor; [right; left; reflexivity|].
  constructor; [left; reflexivity|constructor].
Qed.

Lemma groups_sorted_by_name_witness :
  exists groups,
    render germanPrimary false None [karotte; apfel] = Some (CatalogView groups)
    /\ forall g, g ∈ groups ->
         Forall (fun p => Product.category p = key g) (cards g).
Proof.
  destruct (render_plain germanPrimary [karotte; apfel]) as (g & _ & Er & _).
  { repeat (constructor; [reflexivity|]). constructor. }
  exists (renderGroups g). split; [exact Er|].
  intros gr Hgr.
  destruct (groups_sorted_by_name germanPrimary [karotte; apfel] (renderGroups g)
              germanPrimary_consistent typed_samples Er gr Hgr) as [Hc _].
  eapply Forall_impl; [exact Hc|]. now intros p [? _].
Defined.

Lemma all_equal_singleton {A : Type} (l : list A) x :
  NoDup l -> x ∈ l -> (forall y, y ∈ l -> y = x) -> l = [x].
Proof.
  intros Hnd Hx Hall. destruct l as [|a [|b t]].
  - now apply elem_of_nil in Hx.
  - f_equal. apply Hall. left.
  - exfalso. apply NoDup_cons in Hnd as [Hab _]. apply Hab.
    rewrite (Hall a) by left. rewrite (Hall b) by (right; left). left.
Qed.

(** The cards that show the edit form are the rendered products that
    carry the id of the record being edited; when the ids of the
    collection are pairwise distinct and the record is a typed product
    of the collection, that is its card and no other. *)
Theorem cards_in_edit_mode lc products groups editing :
  render lc false None products = Some (CatalogView groups) ->
  (forall q,
     q ∈ filter (fun q => inEditMode editing q = true) (concat (cards <$> groups))
     <-> q ∈ products /\ typed q
         /\ exists e, editing = Some e /\ Product.id e = Product.id q)
  /\ (forall p, editing = Some p -> p ∈ products -> typed p ->
        NoDup (Product.id <$> products) ->
        filter (fun q => inEditMode editing q = true) (concat (cards <$> groups))
        = [p]).
Proof.
  intros Er.
  pose proof (rendered_cards_typed lc products groups Er) as Hperm.
  assert (Hmem : forall q,
     q ∈ filter (fun q => inEditMode editing q = true) (concat (cards <$> groups))
     <-> q ∈ products /\ typed q
         /\ exists e, editing = Some e /\ Product.id e = Product.id q).
  { intros q. rewrite list_elem_of_filter, Hperm, list_elem_of_filter.
    unfold inEditMode. destruct editing as [e|].
    - rewrite bool_decide_eq_true. split.
      + intros (Hid & Ht & Hq). eauto 6.
      + intros (Hq & Ht & e' & [= <-] & Hid). auto.
    - split; [intros [[=] _]|intros (_ & _ & e & [=] & _)]. }
  split; [exact Hmem|].
  intros p Ep Hp Ht Hnd. apply all_equal_singleton.
  - apply NoDup_filter. rewrite Hperm. apply NoDup_filter.
    now apply (NoDup_fmap_1 Product.id).
  - apply Hmem. eauto 6.
  - intros q Hq. apply Hmem in Hq as (Hq & _ & e & Ee & Hid).
    assert (e = p) as -> by congruence.
    symmetry. now apply (ids_injective_on products).
Qed.

Lemma cards_in_edit_mode_witness :
  exists groups,
    render germanPrimary false None [karotte; apfel] = Some (CatalogView groups)
    /\ filter (fun q => inEditMode (Some apfel) q = true) (concat (cards <$> groups))
       = [apfel].
Proof.
  destruct (render_plain germanPrimary [karotte; apfel]) as (g & _ & Er & _).
  { repeat (constructor; [reflexivity|]). constructor. }
  exists (renderGroups g). split; [exact Er|].
  destruct (cards_in_edit_mode germanPrimary [karotte; apfel] (renderGroups g)
              (Some apfel) Er) as [_ Hone].
  apply (Hone apfel eq_refl).
  - right. left.
  - left. reflexivity.
  - cbn. apply NoDup_cons. split; [|apply NoDup_singleton].
    intros Hin. apply list_elem_of_singleton in Hin. discriminate Hin.
Defined.

(** ** The sorted sequence, once more *)

Lemma filter_class_singleton {A : Type} (P : A -> Prop)
    `{forall x, Decision (P x)} (l : list A) x :
  NoDup l -> x ∈ l -> P x -> (forall y, y ∈ l -> P y -> y = x) ->
  filter P l = [x].
Proof.
  intros Hnd Hx Px Hall. apply all_equal_singleton.
  - now apply NoDup_filter.
  - now apply list_elem_of_filter.
  - intros y Hy. apply list_elem_of_filter in Hy as [Py Hy]. auto.
Qed.

(** Sorting what is sorted changes nothing, and the order on display
    does not depend on the order in the store as long as no two records
    tie on category and name. *)
Theorem display_order_is_canonical lc products :
  JsArray.Consistent (fun _ => True) lc -> Forall typed products ->
  sortedProducts lc (sortedProducts lc products) = sortedProducts lc products
  /\ (NoDup products ->
      (forall a b, a ∈ products -> b ∈ products ->
                   compareKeys lc a b = 0 -> a = b) ->
      forall stored, stored ≡ₚ products ->
        sortedProducts lc stored = sortedProducts lc products).
Proof.
  intros Hc HT.
  destruct (sortedProducts_StableSort lc Hc products HT) as (Hp & Hs & _).
  assert (HTs : Forall typed (sortedProducts lc products)) by now rewrite Hp.
  split.
  - symmetry. apply (sortedProducts_unique lc Hc); [assumption|].
    split; [reflexivity|]. split; [assumption|reflexivity].
  - intros Hnd Hties stored Hperm.
    assert (HT' : Forall typed stored) by now rewrite Hperm.
    symmetry. apply (sortedProducts_unique lc Hc); [assumption|].
    split; [now rewrite Hp|]. split; [assumption|].
    intros x Hx. rewrite Hperm in Hx.
    assert (Tx : typed x) by (rewrite Forall_forall in HT; auto).
    assert (Rx : compareKeys lc x x = 0)
      by apply (JsArray.cc_refl _ _ (compareKeys_consistent lc Hc) x Tx).
    rewrite (filter_class_singleton _ (sortedProducts lc products) x),
            (filter_class_singleton _ stored x); try reflexivity; try assumption.
    + now rewrite Hperm.
    + now rewrite Hperm.
    + intros y Hy Ey. rewrite Hperm in Hy. symmetry. now apply Hties.
    + now rewrite Hp.
    + now rewrite Hp.
    + intros y Hy Ey. rewrite Hp in Hy. symmetry. now apply Hties.
Qed.

Lemma display_order_is_canonical_witness :
  sortedProducts germanPrimary [karotte; apfel]
  = sortedProducts germanPrimary [apfel; karotte].
Proof.
  destruct (display_order_is_canonical germanPrimary [apfel; karotte]
              germanPrimary_consistent) as [_ Hany].
  - constructor; [left; reflexivity|].
    constructor; [right; left; reflexivity|constructor].
  - apply Hany.
    + apply NoDup_cons. split; [|apply NoDup_singleton].
      intros Hin. apply list_elem_of_singleton in Hin. discriminate Hin.
    + intros a b Ha Hb.
      apply elem_of_cons in Ha as [->|Ha]; [|apply list_elem_of_singleton in Ha as ->];
      (apply elem_of_cons in Hb as [->|Hb]; [|apply list_elem_of_singleton in Hb as ->]);
      try reflexivity; intros E; vm_compute in E; discriminate E.
    + apply Permutation_swap.
Defined.

(** ** From one end of the page to the other *)

Lemma typed_plain p : typed p -> inherited (Product.category p) = false.
Proof.
  unfold typed, knownCategory. intros [-> | [-> | ->]]; reflexivity.
Qed.

Lemma filter_typed_all (l : list Product.t) :
  Forall typed l -> filter (fun p => typed p) l = l.
Proof.
  induction 1 as [|p l Hp _ IH]; [reflexivity|].
  rewrite filter_cons_True by assumption. now f_equal.
Qed.

(** The page can show what it saves: starting from well-formed records,
    with only well-formed deliveries and offered events, every collection
    it hands to saveProducts renders without a throw, and the view
    rendered from it shows each of its records once. *)
Theorem page_can_show_what_it_saves lc resolves products events :
  Forall wellFormed products ->
  offeredRun resolves (initialPage products) events ->
  (forall delivered, Deliver delivered ∈ events -> Forall wellFormed delivered) ->
  forall collection,
    collection ∈ Page.saved (run resolves events (initialPage products)) ->
    exists groups,
      render lc false None collection = Some (CatalogView groups)
      /\ concat (cards <$> groups) ≡ₚ collection.
Proof.
  intros Hp Ho Hd collection Hc.
  destruct (run_invariant resolves events _ (initialPage_invariant _ Hp) Ho Hd)
    as (_ & _ & _ & Hs).
  rewrite Forall_forall in Hs. specialize (Hs _ Hc).
  assert (HT : Forall typed collection)
    by (eapply Forall_impl; [exact Hs|apply wellFormed_typed]).
  destruct (render_plain lc collection) as (g & _ & Er & _).
  { eapply Forall_impl; [exact HT|apply typed_plain]. }
  exists (renderGroups g). split; [exact Er|].
  rewrite (rendered_cards_typed lc collection _ Er).
  now rewrite filter_typed_all.
Qed.

Lemma page_can_show_what_it_saves_witness :
  Forall (fun collection =>
            exists groups,
              render germanPrimary false None collection
              = Some (CatalogView groups))
    (Page.saved (run (fun _ => true)
                     (enterAndAdd (js"Karotte") (js"Bund") 0%float)
                     (initialPage [apfel]))).
Proof.
  apply Forall_forall. intros collection Hc.
  destruct (page_can_show_what_it_saves germanPrimary (fun _ => true) [apfel]
              (enterAndAdd (js"Karotte") (js"Bund") 0%float)) with (collection := collection)
    as (groups & Er & _).
  - constructor; [apply apfel_wellFormed|constructor].
  - apply enterAndAdd_offered.
  - intros delivered Hin. unfold enterAndAdd in Hin.
    repeat (apply elem_of_cons in Hin as [Hin|Hin]; [discriminate Hin|]).
    now apply elem_of_nil in Hin.
  - exact Hc.
  - now exists groups.
Defined.


